(** * Tungsten bidirectional path tracer: path vertices, connections, MIS weight

    A shallow embedding of
    [src/core/integrators/bidirectional_path_tracer/PathVertex.cpp].

    Conventions of the embedding.
    - C++ [float] is read in exact arithmetic: a [float] is a rational
      number ([Q]); [1e-4f] is [1/10000].  Equalities between computed
      scalars are stated with [==] ([Qeq]) where algebra is involved and with
      [=] where the code's expression is reproduced literally.
    - The tagged vertex ([type] + the [_record] and [sampler] unions) is a sum
      type whose constructor carries the active arm of both unions.
    - Pointers that the code passes as possibly null are [option]s; storage
      that is written through a pointer is threaded explicitly.  Undefined
      behaviour (a null dereference, an index outside an array, reading a
      union arm that is not the active one) is the result [Fault].
    - The collaborators that live outside this file (scene, tracer helper,
      BSDF, medium, emitter, camera, samplers) are the fields of the
      [World] class; every theorem holds for all of them. *)

From Stdlib Require Import QArith Qabs ZArith List Lia Lqa.
From stdpp Require Import base list.
Import ListNotations.

Local Open Scope Q_scope.

(** ** Scalars and vectors *)

Abbreviation float := Q (only parsing).

Record Vec3f := mkVec3f { vx : float; vy : float; vz : float }.

Definition Vec3f_splat (a : float) : Vec3f := mkVec3f a a a.
Definition vmul (a b : Vec3f) : Vec3f :=
  mkVec3f (vx a * vx b) (vy a * vy b) (vz a * vz b).
Definition vsub (a b : Vec3f) : Vec3f :=
  mkVec3f (vx a - vx b) (vy a - vy b) (vz a - vz b).
Definition vneg (a : Vec3f) : Vec3f := mkVec3f (- vx a) (- vy a) (- vz a).
Definition vdivs (a : Vec3f) (k : float) : Vec3f :=
  mkVec3f (vx a / k) (vy a / k) (vz a / k).
Definition dot (a b : Vec3f) : float := vx a * vx b + vy a * vy b + vz a * vz b.

(** [Vec2u]: a pixel coordinate (two unsigned integers). *)
Definition Vec2u := (N * N)%type.

(** ** Results with undefined behaviour made explicit *)

Inductive fault := NullDeref | OutOfBounds | InactiveArm.

Inductive result (A : Type) :=
| OK (a : A)
| Fault (f : fault).
Arguments OK {A} a.
Arguments Fault {A} f.

Definition rbind {A B} (m : result A) (k : A -> result B) : result B :=
  match m with
  | OK a => k a
  | Fault f => Fault f
  end.

Notation "x <- m ;; k" := (rbind m (fun x => k))
  (at level 100, m at next level, right associativity).

(** Dereference of a pointer that may be null. *)
Definition deref {A} (p : option A) : result A :=
  match p with
  | Some a => OK a
  | None => Fault NullDeref
  end.

(** ** Opaque collaborator types *)

Class Handles := {
  Emitter : Type;
  Camera : Type;
  Bsdf : Type;
  Medium : Type;
  SampleGenerator : Type;
  UniformSampler : Type;
  MediumState : Type;
  IntersectionTemporary : Type;
  TangentFrame : Type;
  EventExtra : Type;
  VertexAddr : Type
}.

Section Data.
Context {H : Handles}.

(** [Ray(pos, dir, nearT, farT)] with its primary-ray flag. *)
Record Ray := mkRay {
  ray_pos : Vec3f;
  ray_dir : Vec3f;
  ray_nearT : float;
  ray_farT : float;
  ray_primary : bool
}.

Definition setPrimaryRay (r : Ray) (b : bool) : Ray :=
  mkRay (ray_pos r) (ray_dir r) (ray_nearT r) (ray_farT r) b.

Record PositionSample := mkPositionSample {
  ps_p : Vec3f;
  ps_pdf : float;
  ps_weight : Vec3f;
  ps_Ng : Vec3f
}.

Record DirectionSample := mkDirectionSample {
  ds_d : Vec3f;
  ds_pdf : float;
  ds_weight : Vec3f
}.

(** Where a scatter event's [info] pointer points: into the [SurfaceRecord]
    local to a [scatter] call, into the record owned by the vertex stored at
    an address, or somewhere else. *)
Inductive InfoPtr :=
| InfoOfLocalRecord
| InfoOfVertex (a : VertexAddr)
| InfoElsewhere.

Record IntersectionInfo := mkIntersectionInfo {
  ii_p : Vec3f;
  ii_Ng : Vec3f;
  ii_bsdf : Bsdf
}.

Record SurfaceScatterEvent := mkSurfaceScatterEvent {
  ev_info : InfoPtr;
  ev_frame : TangentFrame;
  ev_wi : Vec3f;
  ev_wo : Vec3f;
  ev_throughput : Vec3f;
  ev_pdf : float;
  ev_extra : EventExtra
}.

Definition setEventInfo (e : SurfaceScatterEvent) (p : InfoPtr) : SurfaceScatterEvent :=
  mkSurfaceScatterEvent p (ev_frame e) (ev_wi e) (ev_wo e) (ev_throughput e)
    (ev_pdf e) (ev_extra e).

Record VolumeScatterEvent := mkVolumeScatterEvent {
  vol_p : Vec3f;
  vol_wi : Vec3f;
  vol_wo : Vec3f;
  vol_throughput : Vec3f;
  vol_pdf : float
}.

Record EmitterRootRecord := mkEmitterRootRecord {
  er_pdf : float;
  er_weight : Vec3f;
  er_point : PositionSample
}.

Record CameraRootRecord := mkCameraRootRecord {
  cr_pixel : Vec2u;
  cr_point : PositionSample
}.

Record EmitterRecord := mkEmitterRecord {
  em_point : PositionSample;
  em_direction : DirectionSample
}.

Record CameraRecord := mkCameraRecord {
  cam_pixel : Vec2u;
  cam_point : PositionSample;
  cam_direction : DirectionSample
}.

Record SurfaceRecord := mkSurfaceRecord {
  sr_event : SurfaceScatterEvent;
  sr_data : IntersectionTemporary;
  sr_info : IntersectionInfo
}.

(** The vertex tag together with the active arm of [sampler] and of
    [_record].  [OtherKind] stands for a tag outside the enumeration (the
    [default:] arms of the switches). *)
Inductive VertexKind :=
| EmitterRoot (e : Emitter) (r : EmitterRootRecord)
| CameraRoot (c : Camera) (r : CameraRootRecord)
| EmitterVertex (e : Emitter) (r : EmitterRecord)
| CameraVertex (c : Camera) (r : CameraRecord)
| SurfaceVertex (b : Bsdf) (r : SurfaceRecord)
| VolumeVertex (m : Medium) (r : VolumeScatterEvent)
| OtherKind.

Record PathVertex := mkPathVertex {
  kind : VertexKind;
  throughput : Vec3f;
  pdfForward : float;
  pdfBackward : float
}.

Definition setKind (v : PathVertex) (k : VertexKind) : PathVertex :=
  mkPathVertex k (throughput v) (pdfForward v) (pdfBackward v).
Definition setPdfForward (v : PathVertex) (x : float) : PathVertex :=
  mkPathVertex (kind v) (throughput v) x (pdfBackward v).
Definition setPdfBackward (v : PathVertex) (x : float) : PathVertex :=
  mkPathVertex (kind v) (throughput v) (pdfForward v) x.

Record PathEdge := mkPathEdge {
  d : Vec3f;
  r : float;
  rSq : float
}.

Definition reverse (e : PathEdge) : PathEdge := mkPathEdge (vneg (d e)) (r e) (rSq e).

Record TraceState := mkTraceState {
  sampler : SampleGenerator;
  supplementalSampler : UniformSampler;
  medium : option Medium;
  wasSpecular : bool;
  ray : Ray;
  bounce : Z;
  mediumState : MediumState
}.

End Data.

(** ** External collaborators

    Every function of the scene, the tracer helper, the BSDF, medium, emitter
    and camera models that [PathVertex.cpp] calls.  An argument the callee
    receives by non-const reference or pointer comes back in the result. *)

(** What [TraceBase::handleSurface] receives and may update. *)
Section Exchange.
Context {H : Handles}.

Record SurfaceIO := mkSurfaceIO {
  io_record : SurfaceRecord;
  io_sampler : SampleGenerator;
  io_supplementalSampler : UniformSampler;
  io_medium : option Medium;
  io_ray : Ray;
  io_scatterWeight : Vec3f;
  io_emission : Vec3f;
  io_wasSpecular : bool;
  io_mediumState : MediumState
}.

End Exchange.

Class World `{Handles} := {
  (* Emitter *)
  emitter_samplePosition :
    Emitter -> SampleGenerator -> PositionSample ->
    bool * SampleGenerator * PositionSample;
  emitter_sampleDirection :
    Emitter -> SampleGenerator -> PositionSample -> DirectionSample ->
    bool * SampleGenerator * DirectionSample;
  emitter_evalDirectionalEmission :
    Emitter -> PositionSample -> DirectionSample -> Vec3f;
  emitter_directionalPdf :
    Emitter -> PositionSample -> DirectionSample -> float;
  (* Camera *)
  camera_samplePosition :
    Camera -> SampleGenerator -> PositionSample ->
    bool * SampleGenerator * PositionSample;
  camera_sampleDirection :
    Camera -> SampleGenerator -> PositionSample -> Vec2u -> DirectionSample ->
    bool * SampleGenerator * DirectionSample;
  camera_evalDirection :
    Camera -> SampleGenerator -> PositionSample -> DirectionSample -> Vec2u ->
    bool * SampleGenerator * Vec3f * Vec2u;
  camera_directionPdf :
    Camera -> PositionSample -> DirectionSample -> float;
  (* Bsdf and scatter-event queries *)
  bsdf_pdf : Bsdf -> SurfaceScatterEvent -> float;
  bsdf_eval : Bsdf -> SurfaceScatterEvent -> Vec3f;
  makeWarpedQuery : SurfaceScatterEvent -> Vec3f -> Vec3f -> SurfaceScatterEvent;
  makeFlippedQuery : SurfaceScatterEvent -> SurfaceScatterEvent;
  toLocal : TangentFrame -> Vec3f -> Vec3f;
  (* Medium and phase-function queries *)
  medium_phasePdf : Medium -> VolumeScatterEvent -> float;
  medium_phaseEval : Medium -> VolumeScatterEvent -> Vec3f;
  vol_makeWarpedQuery : VolumeScatterEvent -> Vec3f -> Vec3f -> VolumeScatterEvent;
  vol_makeFlippedQuery : VolumeScatterEvent -> VolumeScatterEvent;
  (* TraceableScene *)
  scene_intersect : Ray -> bool * Ray * IntersectionTemporary * IntersectionInfo;
  scene_occluded : Ray -> bool;
  (* TraceBase; the bounce counter and the light-sampling flag are inputs *)
  tracer_handleSurface : SurfaceIO -> Z -> bool -> bool * SurfaceIO;
  tracer_makeLocalScatterEvent :
    IntersectionTemporary -> IntersectionInfo -> Ray ->
    SampleGenerator -> UniformSampler -> SurfaceScatterEvent;
  (* Vec3f::length (a square root) and the defaults of the Ray constructor *)
  vec_length : Vec3f -> float;
  ray_defaultNearT : float;
  ray_defaultFarT : float;
  ray_defaultPrimary : bool;
  (* what a read of storage that was never initialised yields *)
  indeterminate : float
}.

Section Vertex.
Context `{W : World}.

(** ** Constructors declared in [PathVertex.hpp] *)

(** Modelled from the spec: the [Ray] constructors ([Ray.hpp] is not part of
    the sources); the near/far window and the primary flag take the class
    defaults unless given. *)
Definition Ray2 (p dir : Vec3f) : Ray :=
  mkRay p dir ray_defaultNearT ray_defaultFarT ray_defaultPrimary.
Definition Ray4 (p dir : Vec3f) (nearT farT : float) : Ray :=
  mkRay p dir nearT farT ray_defaultPrimary.

(** Modelled from the spec: [DirectionSample(d)] sets the direction only. *)
Definition DirectionSample_of (dir : Vec3f) : DirectionSample :=
  mkDirectionSample dir indeterminate (Vec3f_splat indeterminate).

(** Modelled from the spec: [EmitterRecord(point)] and
    [CameraRecord(pixel, point)] commit the position sample; the direction
    sample is filled by the next [scatter]. *)
Definition EmitterRecord_of (pt : PositionSample) : EmitterRecord :=
  mkEmitterRecord pt (DirectionSample_of (Vec3f_splat indeterminate)).
Definition CameraRecord_of (px : Vec2u) (pt : PositionSample) : CameraRecord :=
  mkCameraRecord px pt (DirectionSample_of (Vec3f_splat indeterminate)).

(** Modelled from the spec: the [PathVertex] factories bind the tag, the
    sampler handle, the record and the throughput; [pdfForward] and
    [pdfBackward] are not initialised by them. *)
Definition PathVertex_of (k : VertexKind) (thr : Vec3f) : PathVertex :=
  mkPathVertex k thr indeterminate indeterminate.

(** ** Per-kind queries *)

Definition weight (v : PathVertex) : Vec3f :=
  match kind v with
  | EmitterRoot _ rec => vmul (ps_weight (er_point rec)) (er_weight rec)
  | CameraRoot _ rec => ps_weight (cr_point rec)
  | EmitterVertex _ rec => ds_weight (em_direction rec)
  | CameraVertex _ rec => ds_weight (cam_direction rec)
  | SurfaceVertex _ rec => ev_throughput (sr_event rec)
  | VolumeVertex _ rec => vol_throughput rec
  | OtherKind => Vec3f_splat 0
  end.

Definition pdf (v : PathVertex) : float :=
  match kind v with
  | EmitterRoot _ rec => er_pdf rec * ps_pdf (er_point rec)
  | CameraRoot _ rec => ps_pdf (cr_point rec)
  | EmitterVertex _ rec => ds_pdf (em_direction rec)
  | CameraVertex _ rec => ds_pdf (cam_direction rec)
  | SurfaceVertex _ rec => ev_pdf (sr_event rec)
  | VolumeVertex _ rec => vol_pdf rec
  | OtherKind => 0
  end.

Definition reversePdf (v : PathVertex) : float :=
  match kind v with
  | SurfaceVertex b rec => bsdf_pdf b (makeFlippedQuery (sr_event rec))
  | VolumeVertex m rec => medium_phasePdf m (vol_makeFlippedQuery rec)
  | _ => 0
  end.

Definition eval (v : PathVertex) (dir : Vec3f) : Vec3f :=
  match kind v with
  | EmitterRoot _ _ | CameraRoot _ _ => Vec3f_splat 0
  | EmitterVertex e rec =>
      emitter_evalDirectionalEmission e (em_point rec) (DirectionSample_of dir)
  | CameraVertex _ _ => Vec3f_splat 0
  | SurfaceVertex b rec =>
      bsdf_eval b (makeWarpedQuery (sr_event rec) (ev_wi (sr_event rec))
                     (toLocal (ev_frame (sr_event rec)) dir))
  | VolumeVertex m rec => medium_phaseEval m (vol_makeWarpedQuery rec (vol_wi rec) dir)
  | OtherKind => Vec3f_splat 0
  end.

Definition pos (v : PathVertex) : Vec3f :=
  match kind v with
  | EmitterRoot _ _ | CameraRoot _ _ => Vec3f_splat 0
  | EmitterVertex _ rec => ps_p (em_point rec)
  | CameraVertex _ rec => ps_p (cam_point rec)
  | SurfaceVertex _ rec => ii_p (sr_info rec)
  | VolumeVertex _ rec => vol_p rec
  | OtherKind => Vec3f_splat 0
  end.

Definition cosineFactor (v : PathVertex) (dir : Vec3f) : float :=
  match kind v with
  | EmitterVertex _ rec => Qabs (dot (ps_Ng (em_point rec)) dir)
  | CameraVertex _ rec => Qabs (dot (ps_Ng (cam_point rec)) dir)
  | SurfaceVertex _ rec => Qabs (dot (ii_Ng (sr_info rec)) dir)
  | _ => 1
  end.

(** Modelled from the spec: [PathEdge(a, b)] (declared in [PathVertex.hpp]):
    [d = normalize(b.pos() - a.pos())], [r = |b.pos() - a.pos()|],
    [rSq = r*r]. *)
Definition PathEdge_of (a b : PathVertex) : PathEdge :=
  let v := vsub (pos b) (pos a) in
  let len := vec_length v in
  mkPathEdge (vdivs v len) len (len * len).

End Vertex.

(** ** [PathVertex::scatter]

    The objects a call can modify: the vertex itself ([*this], whose record
    the samplers fill in), the trace state, the predecessor ([*prev], which
    may be null) and the two out-parameters.  The three vertices are distinct
    objects.  [nextAddr] is the address of the storage [next] refers to. *)

Section Frames.
Context {H : Handles}.

Record Frame := mkFrame {
  f_this : PathVertex;
  f_state : TraceState;
  f_prev : option PathVertex;
  f_next : PathVertex;
  f_nextEdge : PathEdge
}.

End Frames.

(** How the [switch] of [scatter] is left: by a [return], or by [break] with
    the local [pdf] set. *)
Inductive SwitchExit :=
| Return (b : bool)
| Break (pdf : float).

Section Scatter.
Context `{W : World}.

Definition setSampler (st : TraceState) (g : SampleGenerator) : TraceState :=
  mkTraceState g (supplementalSampler st) (medium st) (wasSpecular st) (ray st)
    (bounce st) (mediumState st).
Definition setRay (st : TraceState) (ry : Ray) : TraceState :=
  mkTraceState (sampler st) (supplementalSampler st) (medium st) (wasSpecular st) ry
    (bounce st) (mediumState st).
Definition setBounce (st : TraceState) (b : Z) : TraceState :=
  mkTraceState (sampler st) (supplementalSampler st) (medium st) (wasSpecular st)
    (ray st) b (mediumState st).

(** The state after [handleSurface] has updated what it received by
    reference; the bounce counter was passed by value. *)
Definition stateAfterSurface (st : TraceState) (io : SurfaceIO) : TraceState :=
  mkTraceState (io_sampler io) (io_supplementalSampler io) (io_medium io)
    (io_wasSpecular io) (io_ray io) (bounce st) (io_mediumState io).

Definition withThis (fr : Frame) (v : PathVertex) : Frame :=
  mkFrame v (f_state fr) (f_prev fr) (f_next fr) (f_nextEdge fr).
Definition withState (fr : Frame) (st : TraceState) : Frame :=
  mkFrame (f_this fr) st (f_prev fr) (f_next fr) (f_nextEdge fr).
Definition withPrev (fr : Frame) (p : PathVertex) : Frame :=
  mkFrame (f_this fr) (f_state fr) (Some p) (f_next fr) (f_nextEdge fr).
Definition withNext (fr : Frame) (v : PathVertex) : Frame :=
  mkFrame (f_this fr) (f_state fr) (f_prev fr) v (f_nextEdge fr).
Definition withNextEdge (fr : Frame) (e : PathEdge) : Frame :=
  mkFrame (f_this fr) (f_state fr) (f_prev fr) (f_next fr) e.

(** Lines 62-124: the [switch (type)]. *)
Definition scatterSwitch (fr : Frame) (prevEdge : option PathEdge)
  : result (SwitchExit * Frame) :=
  let this := f_this fr in
  let state := f_state fr in
  match kind this with
  | EmitterRoot e record =>
      let '(ok, g, pt) := emitter_samplePosition e (sampler state) (er_point record) in
      let record := mkEmitterRootRecord (er_pdf record) (er_weight record) pt in
      let this := setKind this (EmitterRoot e record) in
      let fr := withState (withThis fr this) (setSampler state g) in
      if negb ok then OK (Return false, fr)
      else
        let next := PathVertex_of (EmitterVertex e (EmitterRecord_of (er_point record)))
                      (weight this) in
        let nextEdge := PathEdge_of this next in
        let next := setPdfForward next (ps_pdf (er_point record)) in
        OK (Return true, withNextEdge (withNext fr next) nextEdge)
  | CameraRoot c record =>
      let '(ok, g, pt) := camera_samplePosition c (sampler state) (cr_point record) in
      let record := mkCameraRootRecord (cr_pixel record) pt in
      let this := setKind this (CameraRoot c record) in
      let fr := withState (withThis fr this) (setSampler state g) in
      if negb ok then OK (Return false, fr)
      else
        let next := PathVertex_of
                      (CameraVertex c (CameraRecord_of (cr_pixel record) (cr_point record)))
                      (weight this) in
        let nextEdge := PathEdge_of this next in
        let next := setPdfForward next (ps_pdf (cr_point record)) in
        OK (Return true, withNextEdge (withNext fr next) nextEdge)
  | EmitterVertex e record =>
      let '(ok, g, dir) :=
        emitter_sampleDirection e (sampler state) (em_point record) (em_direction record) in
      let record := mkEmitterRecord (em_point record) dir in
      let this := setKind this (EmitterVertex e record) in
      let state := setSampler state g in
      let fr := withState (withThis fr this) state in
      if negb ok then OK (Return false, fr)
      else
        prev <- deref (f_prev fr) ;;
        let fr := withPrev fr (setPdfBackward prev 1) in
        let pdf := ds_pdf (em_direction record) in
        let state := setRay state (Ray2 (ps_p (em_point record)) (ds_d (em_direction record))) in
        OK (Break pdf, withState fr state)
  | CameraVertex c record =>
      let '(ok, g, dir) :=
        camera_sampleDirection c (sampler state) (cam_point record) (cam_pixel record)
          (cam_direction record) in
      let record := mkCameraRecord (cam_pixel record) (cam_point record) dir in
      let this := setKind this (CameraVertex c record) in
      let state := setSampler state g in
      let fr := withState (withThis fr this) state in
      if negb ok then OK (Return false, fr)
      else
        prev <- deref (f_prev fr) ;;
        let fr := withPrev fr (setPdfBackward prev 1) in
        let pdf := ds_pdf (cam_direction record) in
        let state := setRay state (Ray2 (ps_p (cam_point record)) (ds_d (cam_direction record))) in
        let state := setRay state (setPrimaryRay (ray state) true) in
        OK (Break pdf, withState fr state)
  | SurfaceVertex b record =>
      let scatterWeight := Vec3f_splat 1 in
      let emission := Vec3f_splat 0 in
      let '(scattered, io) :=
        tracer_handleSurface
          (mkSurfaceIO record (sampler state) (supplementalSampler state) (medium state)
             (ray state) scatterWeight emission (wasSpecular state) (mediumState state))
          (bounce state) false in
      let record := io_record io in
      let this := setKind this (SurfaceVertex b record) in
      let fr := withState (withThis fr this) (stateAfterSurface state io) in
      if negb scattered then OK (Return false, fr)
      else
        prev <- deref (f_prev fr) ;;
        pe <- deref prevEdge ;;
        let fr := withPrev fr
                    (setPdfBackward prev
                       (reversePdf this * cosineFactor prev (d pe) / rSq pe)) in
        let pdf := ev_pdf (sr_event record) in
        OK (Break pdf, fr)
  | VolumeVertex m record =>
      let pdf := vol_pdf record in
      OK (Return false, fr)
  | OtherKind => OK (Return false, fr)
  end.

(** Lines 126-140: the shared tracing tail. *)
Definition tracingTail (pdf : float) (fr : Frame) (nextAddr : VertexAddr)
  : bool * Frame :=
  let this := f_this fr in
  let state := f_state fr in
  let '(didHit, ry, data, info) := scene_intersect (ray state) in
  let state := setRay state ry in
  let fr := withState fr state in
  if negb didHit then (false, fr)
  else
    let event :=
      tracer_makeLocalScatterEvent data info (ray state) (sampler state)
        (supplementalSampler state) in
    let record := mkSurfaceRecord event data info in
    let next := PathVertex_of (SurfaceVertex (ii_bsdf (sr_info record)) record)
                  (vmul (throughput this) (weight this)) in
    let next :=
      setKind next
        (SurfaceVertex (ii_bsdf (sr_info record))
           (mkSurfaceRecord (setEventInfo (sr_event record) (InfoOfVertex nextAddr))
              (sr_data record) (sr_info record))) in
    let state := setBounce state (bounce state + 1)%Z in
    let nextEdge := PathEdge_of this next in
    let next := setPdfForward next (pdf * cosineFactor next (d nextEdge) / rSq nextEdge) in
    (true, withNextEdge (withNext (withState fr state) next) nextEdge).

Definition scatter (fr : Frame) (prevEdge : option PathEdge) (nextAddr : VertexAddr)
  : result (bool * Frame) :=
  ex <- scatterSwitch fr prevEdge ;;
  match fst ex with
  | Return b => OK (b, snd ex)
  | Break pdf => OK (tracingTail pdf (snd ex) nextAddr)
  end.

End Scatter.

(** ** [LightPath::connect] (both overloads) *)

Section Connect.
Context `{W : World}.

(** The shadow ray of a connection: from [a] along the edge, over the
    parametric window [[1e-4, r*(1 - 1e-4)]]. *)
Definition shadowRay (a : PathVertex) (edge : PathEdge) : Ray :=
  Ray4 (pos a) (d edge) (1 # 10000) (r edge * (1 - (1 # 10000))).

(** Lines 237-244. *)
Definition connect (a b : PathVertex) : Vec3f :=
  let edge := PathEdge_of a b in
  if scene_occluded (shadowRay a edge) then Vec3f_splat 0
  else
    vdivs (vmul (vmul (vmul (throughput a) (eval a (d edge))) (eval b (vneg (d edge))))
             (throughput b))
      (rSq edge).

(** Lines 246-260: the camera-splat overload.  The result carries the values
    of the three reference parameters [sampler], [weight] and [pixel] after
    the call.  The code reads [a.sampler.camera] and [a._record.camera]
    without looking at the tag. *)
Definition connect_splat (a b : PathVertex) (smp : SampleGenerator)
    (weightOut : Vec3f) (pixel : Vec2u)
  : result (bool * (SampleGenerator * Vec3f * Vec2u)) :=
  let edge := PathEdge_of a b in
  if scene_occluded (shadowRay a edge) then OK (false, (smp, weightOut, pixel))
  else
    match kind a with
    | CameraVertex c record =>
        let '(ok, g, splatWeight, px) :=
          camera_evalDirection c smp (cam_point record) (DirectionSample_of (d edge)) pixel in
        if negb ok then OK (false, (g, weightOut, px))
        else
          let weightOut :=
            vdivs (vmul (vmul (vmul splatWeight (throughput a)) (eval b (vneg (d edge))))
                     (throughput b))
              (rSq edge) in
          OK (true, (g, weightOut, px))
    | _ => Fault InactiveArm
    end.

End Connect.

(** ** Float storage written through pointers

    [evalPdfs] writes through two [float *]; in [misWeight] they point into
    the two stack arrays.  A pointer is null or names an array and an index. *)

Inductive Block := ForwardArr | BackwardArr.

Definition FloatPtr := option (Block * nat).

Record Scratch := mkScratch {
  pdfForwardArr : list float;
  pdfBackwardArr : list float
}.

Definition arrayOf (m : Scratch) (b : Block) : list float :=
  match b with
  | ForwardArr => pdfForwardArr m
  | BackwardArr => pdfBackwardArr m
  end.

Definition setArray (m : Scratch) (b : Block) (l : list float) : Scratch :=
  match b with
  | ForwardArr => mkScratch l (pdfBackwardArr m)
  | BackwardArr => mkScratch (pdfForwardArr m) l
  end.

(** [*p = v]. *)
Definition store (p : FloatPtr) (v : float) (m : Scratch) : result Scratch :=
  match p with
  | None => Fault NullDeref
  | Some (b, i) =>
      if (i <? length (arrayOf m b))%nat then OK (setArray m b (<[i := v]> (arrayOf m b)))
      else Fault OutOfBounds
  end.

(** [a[i]] as an rvalue, for an index inside the array. *)
Definition load (l : list float) (i : nat) : float := nth i l 0.

(** ** [PathVertex::evalPdfs] (lines 164-202) *)

Section EvalPdfs.
Context `{W : World}.

Definition evalPdfs (this : PathVertex) (prev : option PathVertex)
    (prevEdge : option PathEdge) (next : PathVertex) (nextEdge : PathEdge)
    (forward backward : FloatPtr) (m : Scratch) : result Scratch :=
  match kind this with
  | EmitterRoot _ record => store forward (ps_pdf (er_point record)) m
  | CameraRoot _ record => store forward (ps_pdf (cr_point record)) m
  | EmitterVertex e record =>
      m <- store forward
             (cosineFactor next (d nextEdge) / rSq nextEdge *
              emitter_directionalPdf e (em_point record) (DirectionSample_of (d nextEdge)))
             m ;;
      store backward 1 m
  | CameraVertex c record =>
      m <- store forward
             (cosineFactor next (d nextEdge) / rSq nextEdge *
              camera_directionPdf c (cam_point record) (DirectionSample_of (d nextEdge)))
             m ;;
      store backward 1 m
  | SurfaceVertex b record =>
      let event := sr_event record in
      pe <- deref prevEdge ;;
      let dPrev := toLocal (ev_frame event) (vneg (d pe)) in
      let dNext := toLocal (ev_frame event) (d nextEdge) in
      m <- store forward
             (bsdf_pdf b (makeWarpedQuery event dPrev dNext) *
              cosineFactor next (d nextEdge) / rSq nextEdge)
             m ;;
      pv <- deref prev ;;
      store backward
        (bsdf_pdf b (makeWarpedQuery event dNext dPrev) *
         cosineFactor pv (d pe) / rSq pe)
        m
  | VolumeVertex md event =>
      pe <- deref prevEdge ;;
      let dPrev := vneg (d pe) in
      let dNext := d nextEdge in
      m <- store forward
             (medium_phasePdf md (vol_makeWarpedQuery event dPrev dNext) *
              cosineFactor next (d nextEdge) / rSq nextEdge)
             m ;;
      pv <- deref prev ;;
      store backward
        (medium_phasePdf md (vol_makeWarpedQuery event dNext dPrev) *
         cosineFactor pv (d pe) / rSq pe)
        m
  | OtherKind =>
      m <- store backward 0 m ;;
      store forward 0 m
  end.

End EvalPdfs.

(** ** [LightPath] and [LightPath::misWeight] *)

Section Paths.
Context {H : Handles}.

(** Modelled from the spec: [LightPath] (declared in [PathVertex.hpp]) as
    seen through its indexed accessors: [path[i]] is the i-th vertex and
    [path.edge(i)] the edge from vertex i to vertex i+1. *)
Record LightPath := mkLightPath {
  vertices : list PathVertex;
  edges : list PathEdge
}.

Definition vertexAt (p : LightPath) (i : nat) : result PathVertex :=
  match vertices p !! i with
  | Some v => OK v
  | None => Fault OutOfBounds
  end.

Definition edgeAt (p : LightPath) (i : nat) : result PathEdge :=
  match edges p !! i with
  | Some e => OK e
  | None => Fault OutOfBounds
  end.

End Paths.

(** A counted [for] loop whose body may fault. *)
Fixpoint forEach {St : Type} (idx : list nat) (body : nat -> St -> result St) (st : St)
  : result St :=
  match idx with
  | [] => OK st
  | i :: rest => st' <- body i st ;; forEach rest body st'
  end.

(** The body shared by the two accumulation loops of [misWeight]:
    [pi *= ratio(i); weight += pi;] over the indices [idx] in order; the
    state is [(weight, pi)]. *)
Fixpoint accumulate (ratio : nat -> float) (idx : list nat) (acc : float * float)
  : float * float :=
  match idx with
  | [] => acc
  | i :: rest =>
      let pi := snd acc * ratio i in
      accumulate ratio rest (fst acc + pi, pi)
  end.

(** Lines 287-299, on the contents of the two arrays. *)
Definition misWeightSum (m : Scratch) (s t : nat) : float :=
  let pdfForward := pdfForwardArr m in
  let pdfBackward := pdfBackwardArr m in
  let weight := 1 in
  let pi := 1 in
  let '(weight, pi) :=
    accumulate (fun i => load pdfForward (i + 1) / load pdfBackward (i + 1))
      (seq s t) (weight, pi) in
  let pi := 1 in
  let '(weight, pi) :=
    accumulate (fun i => load pdfBackward (i + 1) / load pdfForward (i + 1))
      (rev (seq 1 (s - 1))) (weight, pi) in
  1 / weight.

Section MisWeight.
Context `{W : World}.

(** Lines 264-275: the two arrays, filled from the stored pdfs. *)
Definition fillScratch (camera emitter : LightPath) (s t : nat) : result Scratch :=
  let numVerts := ((s + 1) + (t + 1))%nat in
  let m := mkScratch (replicate numVerts indeterminate) (replicate numVerts indeterminate) in
  m <- forEach (seq 0 (s + 1))
         (fun i m =>
            v <- vertexAt emitter i ;;
            m <- store (Some (ForwardArr, i)) (pdfForward v) m ;;
            store (Some (BackwardArr, i)) (pdfBackward v) m)
         m ;;
  forEach (seq 0 (t + 1))
    (fun i m =>
       v <- vertexAt camera i ;;
       m <- store (Some (ForwardArr, numVerts - 1 - i)%nat) (pdfBackward v) m ;;
       store (Some (BackwardArr, numVerts - 1 - i)%nat) (pdfForward v) m)
    m.

(** [i == 0 ? nullptr : &x]. *)
Definition unlessZero {A} (i : nat) (x : result A) : result (option A) :=
  if (i =? 0)%nat then OK None else (a <- x ;; OK (Some a)).

(** The four [float *] arguments of lines 278-285:
    [&pdfForward[s + 1]], [s == 0 ? nullptr : &pdfBackward[s - 1]],
    [&pdfBackward[s]] and [t == 0 ? nullptr : &pdfForward[s + 2]]. *)
Definition emitterForwardPtr (s : nat) : FloatPtr := Some (ForwardArr, (s + 1)%nat).
Definition emitterBackwardPtr (s : nat) : FloatPtr :=
  if (s =? 0)%nat then None else Some (BackwardArr, (s - 1)%nat).
Definition cameraForwardPtr (s : nat) : FloatPtr := Some (BackwardArr, s).
Definition cameraBackwardPtr (s t : nat) : FloatPtr :=
  if (t =? 0)%nat then None else Some (ForwardArr, (s + 2)%nat).

(** Lines 264-285: the arrays as the accumulation loops find them. *)
Definition misScratch (camera emitter : LightPath) (s t : nat) : result Scratch :=
  m <- fillScratch camera emitter s t ;;
  es <- vertexAt emitter s ;;
  ct <- vertexAt camera t ;;
  let edge := PathEdge_of es ct in
  ePrev <- unlessZero s (vertexAt emitter (s - 1)) ;;
  ePrevEdge <- unlessZero s (edgeAt emitter (s - 1)) ;;
  m <- evalPdfs es ePrev ePrevEdge ct edge
         (emitterForwardPtr s) (emitterBackwardPtr s) m ;;
  cPrev <- unlessZero t (vertexAt camera (t - 1)) ;;
  cPrevEdge <- unlessZero t (edgeAt camera (t - 1)) ;;
  evalPdfs ct cPrev cPrevEdge es (reverse edge)
    (cameraForwardPtr s) (cameraBackwardPtr s t) m.

(** [misWeight] for indices that are not negative. *)
Definition misWeightAt (camera emitter : LightPath) (s t : nat) : result float :=
  m <- misScratch camera emitter s t ;;
  OK (misWeightSum m s t).

(** Lines 262-300.  [s] and [t] are C++ [int]s; a negative one indexes in
    front of a path. *)
Definition misWeight (camera emitter : LightPath) (s t : Z) : result float :=
  if ((s <? 0) || (t <? 0))%Z then Fault OutOfBounds
  else misWeightAt camera emitter (Z.to_nat s) (Z.to_nat t).

End MisWeight.

(** ** Predicates used in the statements *)

Section Predicates.
Context {H : Handles}.

Definition isRoot (v : PathVertex) : bool :=
  match kind v with
  | EmitterRoot _ _ | CameraRoot _ _ => true
  | _ => false
  end.

Definition isSurface (v : PathVertex) : bool :=
  match kind v with
  | SurfaceVertex _ _ => true
  | _ => false
  end.

(** [p'] is [p] except, possibly, for its [pdfBackward]. *)
Definition sameUpToPdfBackward (p p' : option PathVertex) : Prop :=
  match p, p' with
  | Some v, Some v' =>
      kind v' = kind v /\ throughput v' = throughput v /\ pdfForward v' = pdfForward v
  | None, None => True
  | _, _ => False
  end.

Definition isEndpoint (v : PathVertex) : bool :=
  match kind v with
  | EmitterVertex _ _ | CameraVertex _ _ => true
  | _ => false
  end.

(** The paths hold the vertices and edges that [misWeight(camera, emitter,
    s, t)] indexes. *)
Definition indexable (camera emitter : LightPath) (s t : nat) : Prop :=
  (s < length (vertices emitter))%nat /\ (s <= length (edges emitter))%nat /\
  (t < length (vertices camera))%nat /\ (t <= length (edges camera))%nat.

(** A pointer to an element of an array of [n] floats. *)
Definition pointsInside (n : nat) (p : FloatPtr) : Prop :=
  exists b i, p = Some (b, i) /\ (i < n)%nat.

(** A colour whose three components are zero. *)
Definition isBlack (c : Vec3f) : Prop := vx c == 0 /\ vy c == 0 /\ vz c == 0.

(** Both arrays of the scratch storage hold [n] floats. *)
Definition sized (n : nat) (m : Scratch) : Prop :=
  length (pdfForwardArr m) = n /\ length (pdfBackwardArr m) = n.

(** Two tags with the same constructor and the same sampler handle. *)
Definition sameTag (k k' : VertexKind) : Prop :=
  match k, k' with
  | EmitterRoot e _, EmitterRoot e' _ => e' = e
  | CameraRoot c _, CameraRoot c' _ => c' = c
  | EmitterVertex e _, EmitterVertex e' _ => e' = e
  | CameraVertex c _, CameraVertex c' _ => c' = c
  | SurfaceVertex b _, SurfaceVertex b' _ => b' = b
  | VolumeVertex m _, VolumeVertex m' _ => m' = m
  | OtherKind, OtherKind => True
  | _, _ => False
  end.

(** [next] is the endpoint a root commits: same handle, the root's position
    sample (and pixel, for a camera). *)
Definition endpointOfRoot (root next : PathVertex) : Prop :=
  match kind root, kind next with
  | EmitterRoot e record, EmitterVertex e' record' =>
      e' = e /\ em_point record' = er_point record
  | CameraRoot c record, CameraVertex c' record' =>
      c' = c /\ cam_pixel record' = cr_pixel record /\ cam_point record' = cr_point record
  | _, _ => False
  end.

(** The pdf of the position sample a root holds. *)
Definition positionPdf (v : PathVertex) : option float :=
  match kind v with
  | EmitterRoot _ record => Some (ps_pdf (er_point record))
  | CameraRoot _ record => Some (ps_pdf (cr_point record))
  | _ => None
  end.

(** The kinds on which [eval] answers [Vec3f(0.0f)]. *)
Definition evalsToZero (v : PathVertex) : bool :=
  match kind v with
  | EmitterRoot _ _ | CameraRoot _ _ | CameraVertex _ _ | OtherKind => true
  | _ => false
  end.

(** The [info] pointer of the scatter event of a surface vertex. *)
Definition eventInfo (v : PathVertex) : option InfoPtr :=
  match kind v with
  | SurfaceVertex _ record => Some (ev_info (sr_event record))
  | _ => None
  end.

End Predicates.

(** ** The balance heuristic in closed form *)

Fixpoint sumQ (l : list float) : float :=
  match l with
  | [] => 0
  | x :: rest => x + sumQ rest
  end.

Fixpoint prodQ (l : list float) : float :=
  match l with
  | [] => 1
  | x :: rest => x * prodQ rest
  end.

(** The running products of the ratios met along [idx]:
    [ratio i1], [ratio i1 * ratio i2], ... *)
Fixpoint runningProducts (ratio : nat -> float) (idx : list nat) : list float :=
  match idx with
  | [] => []
  | i :: rest => ratio i :: map (Qmult (ratio i)) (runningProducts ratio rest)
  end.

(** The denominator of the weight as the specification words it: 1, plus
    the running products of [pdfForward[i+1] / pdfBackward[i+1]] for
    [i = s .. s+t-1], plus the running products of
    [pdfBackward[i+1] / pdfForward[i+1]] for [i = s-1] down to [1]. *)
Definition specWeight (pdfForward pdfBackward : nat -> float) (s t : nat) : float :=
  1 + sumQ (runningProducts (fun i => pdfForward (i + 1)%nat / pdfBackward (i + 1)%nat)
              (seq s t))
    + sumQ (runningProducts (fun i => pdfBackward (i + 1)%nat / pdfForward (i + 1)%nat)
              (rev (seq 1 (s - 1)))).





(** ** A small concrete world

    Used to run the definitions on concrete inputs.  Geometry lives on the
    x axis, where the 1-norm below is the Euclidean length.  Every pdf query
    answers 1.  A ray is occluded when it points towards negative y, misses
    the scene when it points towards negative x, and the camera sees the
    directions with non-negative z. *)

Module Toy.

#[local] Instance handles : Handles :=
  {| Emitter := nat; Camera := nat; Bsdf := nat; Medium := nat;
     SampleGenerator := nat; UniformSampler := nat; MediumState := unit;
     IntersectionTemporary := unit; TangentFrame := unit; EventExtra := unit;
     VertexAddr := nat |}.

Definition norm1 (v : Vec3f) : float := Qabs (vx v) + Qabs (vy v) + Qabs (vz v).

Definition axisX : Vec3f := mkVec3f 1 0 0.

#[local] Instance world : World :=
  {| emitter_samplePosition := fun (e : @Emitter handles) g pt => (true, g, pt);
     emitter_sampleDirection := fun (e : @Emitter handles) g pt dir => (true, S g, dir);
     emitter_evalDirectionalEmission := fun (e : @Emitter handles) _ _ => Vec3f_splat 1;
     emitter_directionalPdf := fun (e : @Emitter handles) _ _ => 1;
     camera_samplePosition := fun (c : @Camera handles) g pt => (true, g, pt);
     camera_sampleDirection := fun (c : @Camera handles) g pt px dir => (true, S g, dir);
     camera_evalDirection := fun (c : @Camera handles) g pt dir px =>
       (Qle_bool 0 (vz (ds_d dir)), S g, Vec3f_splat (1 # 2), (7%N, 9%N));
     camera_directionPdf := fun (c : @Camera handles) _ _ => 1;
     bsdf_pdf := fun (b : @Bsdf handles) _ => 1;
     bsdf_eval := fun (b : @Bsdf handles) _ => Vec3f_splat (1 # 3);
     makeWarpedQuery := fun ev wi wo =>
       mkSurfaceScatterEvent (ev_info ev) (ev_frame ev) wi wo (ev_throughput ev)
         (ev_pdf ev) (ev_extra ev);
     makeFlippedQuery := fun ev =>
       mkSurfaceScatterEvent (ev_info ev) (ev_frame ev) (ev_wo ev) (ev_wi ev)
         (ev_throughput ev) (ev_pdf ev) (ev_extra ev);
     toLocal := fun _ v => v;
     medium_phasePdf := fun (md : @Medium handles) _ => 1;
     medium_phaseEval := fun (md : @Medium handles) _ => Vec3f_splat 1;
     vol_makeWarpedQuery := fun ev wi wo =>
       mkVolumeScatterEvent (vol_p ev) wi wo (vol_throughput ev) (vol_pdf ev);
     vol_makeFlippedQuery := fun ev =>
       mkVolumeScatterEvent (vol_p ev) (vol_wo ev) (vol_wi ev) (vol_throughput ev)
         (vol_pdf ev);
     scene_intersect := fun ry =>
       (Qle_bool 0 (vx (ray_dir ry)), ry, tt,
        mkIntersectionInfo
          (mkVec3f (vx (ray_pos ry) + 2) (vy (ray_pos ry)) (vz (ray_pos ry))) axisX 5%nat);
     scene_occluded := fun ry => negb (Qle_bool 0 (vy (ray_dir ry)));
     tracer_handleSurface := fun io _ _ => (true, io);
     tracer_makeLocalScatterEvent := fun _ _ ry _ _ =>
       mkSurfaceScatterEvent InfoOfLocalRecord tt (vneg (ray_dir ry)) (Vec3f_splat 0)
         (Vec3f_splat 1) 1 tt;
     vec_length := norm1;
     ray_defaultNearT := 1 # 10000;
     ray_defaultFarT := 1000000;
     ray_defaultPrimary := false;
     indeterminate := 0 |}.

Definition vertex := @PathVertex handles.
Definition edge := @PathEdge.

(** A point of the x axis with normal along the axis, sampled with pdf 1. *)
Definition pointAt (x : float) : @PositionSample :=
  mkPositionSample (mkVec3f x 0 0) 1 (Vec3f_splat 1) axisX.

Definition dirSample (dir : Vec3f) : DirectionSample :=
  mkDirectionSample dir (1 # 2) (Vec3f_splat (1 # 4)).

Definition emitterRoot : vertex :=
  mkPathVertex
    (EmitterRoot (1%nat : @Emitter handles) (mkEmitterRootRecord 1 (Vec3f_splat 1) (pointAt 0)))
    (Vec3f_splat 1) 1 1.

Definition cameraRoot : vertex :=
  mkPathVertex (CameraRoot (1%nat : @Camera handles) (mkCameraRootRecord (0%N, 0%N) (pointAt 0)))
    (Vec3f_splat 1) 1 1.

Definition emitterVertex (x : float) (dir : Vec3f) : vertex :=
  mkPathVertex (EmitterVertex (1%nat : @Emitter handles) (mkEmitterRecord (pointAt x) (dirSample dir)))
    (Vec3f_splat 1) 1 1.

Definition cameraVertex (x : float) (dir : Vec3f) : vertex :=
  mkPathVertex
    (CameraVertex (1%nat : @Camera handles)
       (mkCameraRecord (3%N, 4%N) (pointAt x) (dirSample dir)))
    (Vec3f_splat 1) 1 1.

Definition surfaceEvent : @SurfaceScatterEvent handles :=
  mkSurfaceScatterEvent InfoElsewhere tt axisX axisX (Vec3f_splat (1 # 2)) (1 # 3) tt.

Definition surfaceVertex (x : float) : vertex :=
  mkPathVertex
    (SurfaceVertex (5%nat : @Bsdf handles)
       (mkSurfaceRecord surfaceEvent tt (mkIntersectionInfo (mkVec3f x 0 0) axisX (5%nat : @Bsdf handles))))
    (Vec3f_splat 1) 1 1.

Definition surfaceAt (p : Vec3f) : vertex :=
  mkPathVertex
    (SurfaceVertex (5%nat : @Bsdf handles)
       (mkSurfaceRecord surfaceEvent tt (mkIntersectionInfo p axisX (5%nat : @Bsdf handles))))
    (Vec3f_splat 2) 1 1.

Definition volumeVertex (x : float) : vertex :=
  mkPathVertex
    (VolumeVertex (2%nat : @Medium handles)
       (mkVolumeScatterEvent (mkVec3f x 0 0) axisX axisX (Vec3f_splat 1) 1))
    (Vec3f_splat 1) 1 1.

Definition state0 (ry : Ray) : @TraceState handles :=
  mkTraceState (0%nat : @SampleGenerator handles) (0%nat : @UniformSampler handles)
    None false ry 3%Z tt.

Definition ray0 : Ray := mkRay (Vec3f_splat 0) axisX 0 1 false.

Definition unitEdge : edge := mkPathEdge axisX 1 1.

(** One path with the real vertices at x = 1 .. k, split after slot [s]:
    the emitter side holds the root and the vertices at 1 .. s, the camera
    side the root and the vertices at k, k-1, .. down to s + 1.  Every stored
    pdf is 1. *)
Definition ofNat (i : nat) : float := inject_Z (Z.of_nat i).

Definition emitterPath (s : nat) : LightPath :=
  mkLightPath
    (take (s + 1)
       (emitterRoot :: emitterVertex 1 axisX ::
        map (fun i => surfaceVertex (ofNat i)) (seq 2 (s - 1))))
    (replicate s unitEdge).

Definition cameraPath (k t : nat) : LightPath :=
  mkLightPath
    (take (t + 1)
       (cameraRoot :: cameraVertex (ofNat k) (vneg axisX) ::
        map (fun j => surfaceVertex (ofNat (k - j))) (seq 1 (t - 1))))
    (replicate t (mkPathEdge (vneg axisX) 1 1)).

(** The same path with the roots left out of the arrays, so that index 0 is
    the emitter endpoint and the camera endpoint. *)
Definition emitterPathNoRoot : LightPath :=
  mkLightPath [emitterVertex 1 axisX; surfaceVertex 2] [unitEdge].
Definition cameraPathNoRoot : LightPath :=
  mkLightPath [cameraVertex 4 (vneg axisX); surfaceVertex 3]
    [mkPathEdge (vneg axisX) 1 1].


(** Connection partners: [below] sits straight under the origin, so the
    shadow ray towards it is occluded; [behind] sits behind the camera, out
    of its view. *)
Definition origin : vertex := surfaceAt (Vec3f_splat 0).
Definition below : vertex := surfaceAt (mkVec3f 0 (-1) 0).
Definition behind : vertex := surfaceAt (mkVec3f 0 0 (-1)).

Definition scratch3 : Scratch := mkScratch [0; 0; 0] [0; 0; 0].

(** The address of the slot that receives [next]. *)
Definition slot : @VertexAddr handles := 42%nat.

(** Frames for [scatter]: an emitter endpoint shooting along +x (the scene
    is hit), one shooting along -x (a miss), a surface vertex and a volume
    vertex.  The out-parameter [next] starts out holding a camera root. *)
Definition frameHit : Frame :=
  mkFrame (emitterVertex 1 axisX) (state0 ray0) (Some emitterRoot) cameraRoot unitEdge.
Definition frameMiss : Frame :=
  mkFrame (emitterVertex 1 (vneg axisX)) (state0 ray0) (Some emitterRoot) cameraRoot unitEdge.
Definition frameSurface : Frame :=
  mkFrame (surfaceVertex 2) (state0 ray0) (Some (emitterVertex 1 axisX)) cameraRoot unitEdge.
Definition frameVolume : Frame :=
  mkFrame (volumeVertex 2) (state0 ray0) (Some (surfaceVertex 1)) cameraRoot unitEdge.

(** A root about to commit its endpoint, and an endpoint called without a
    predecessor. *)
Definition frameRoot : Frame :=
  mkFrame emitterRoot (state0 ray0) None cameraRoot unitEdge.
Definition frameNoPrev : Frame :=
  mkFrame (emitterVertex 1 axisX) (state0 ray0) None cameraRoot unitEdge.

(** A root whose [pdfBackward] has not been set yet, as predecessor of an
    endpoint that shoots along -x. *)
Definition staleRoot : vertex :=
  mkPathVertex
    (EmitterRoot (1%nat : @Emitter handles) (mkEmitterRootRecord 1 (Vec3f_splat 1) (pointAt 0)))
    (Vec3f_splat 1) 7 9.
Definition frameMissStale : Frame :=
  mkFrame (emitterVertex 1 (vneg axisX)) (state0 ray0) (Some staleRoot) cameraRoot unitEdge.

(** The emitter side with that root in slot 0. *)
Definition emitterPathStale (s : nat) : LightPath :=
  mkLightPath (<[0%nat := staleRoot]> (vertices (emitterPath s))) (edges (emitterPath s)).

End Toy.

(** ** Proof automation *)

(** Case analysis on whatever [match] the hypothesis [Hyp] is stuck on. *)
Ltac split_match Hyp :=
  match type of Hyp with
  | context [match ?x with _ => _ end] =>
      lazymatch x with
      | context [match _ with _ => _ end] => fail
      | _ => first [ is_var x; destruct x | destruct x eqn:? ]
      end
  end.

Ltac unfold_result Hyp :=
  try unfold rbind in Hyp; try unfold deref in Hyp;
  cbn beta iota zeta delta
    [fst snd negb f_this f_state f_prev f_next f_nextEdge
     withThis withState withPrev withNext withNextEdge] in Hyp.

Ltac split_matches Hyp :=
  repeat (unfold_result Hyp; split_match Hyp); unfold_result Hyp.

(** Two pointers of [misWeight] that name different floats. *)
Ltac pointer_differs :=
  unfold emitterForwardPtr, emitterBackwardPtr, cameraForwardPtr, cameraBackwardPtr;
  repeat match goal with |- context [Nat.eqb ?a ?b] => destruct (Nat.eqb a b) end;
  first [ discriminate | intros [= ?]; lia ].

(** * Properties *)

(** ** Helper facts about [store] *)

Lemma arrayOf_setArray_same m b l : arrayOf (setArray m b l) b = l.
Proof. destruct b; reflexivity. Qed.

Lemma arrayOf_setArray_other m b b' l : b <> b' -> arrayOf (setArray m b l) b' = arrayOf m b'.
Proof. destruct b, b'; intros Hne; try reflexivity; congruence. Qed.

Lemma store_in_bounds m b i v :
  (i < length (arrayOf m b))%nat ->
  store (Some (b, i)) v m = OK (setArray m b (<[i := v]> (arrayOf m b))).
Proof.
  intros Hlt. unfold store.
  destruct (Nat.ltb_spec i (length (arrayOf m b))); [reflexivity | lia].
Qed.

Lemma store_inv p v m m' :
  store p v m = OK m' ->
  exists b i, p = Some (b, i) /\ (i < length (arrayOf m b))%nat /\
              m' = setArray m b (<[i := v]> (arrayOf m b)).
Proof.
  unfold store. destruct p as [[b i]|]; [|discriminate].
  destruct (Nat.ltb_spec i (length (arrayOf m b))); [|discriminate].
  intros [= <-]. eauto.
Qed.

Lemma store_null v m : store None v m = Fault NullDeref.
Proof. reflexivity. Qed.

Lemma store_length p v m m' b :
  store p v m = OK m' -> length (arrayOf m' b) = length (arrayOf m b).
Proof.
  intros Hs. apply store_inv in Hs as (b0 & i & _ & _ & ->).
  destruct b0, b; simpl; rewrite ?length_insert; reflexivity.
Qed.

Lemma store_lookup_same m b i v :
  (i < length (arrayOf m b))%nat ->
  arrayOf (setArray m b (<[i := v]> (arrayOf m b))) b !! i = Some v.
Proof.
  intros Hlt. rewrite arrayOf_setArray_same. by apply list_lookup_insert_eq.
Qed.

Lemma store_lookup_other m b i v b' j :
  (b, i) <> (b', j) ->
  arrayOf (setArray m b (<[i := v]> (arrayOf m b))) b' !! j = arrayOf m b' !! j.
Proof.
  intros Hne. destruct b, b'; simpl; try reflexivity;
    apply list_lookup_insert_ne; congruence.
Qed.

(** ** Properties of [scatter] *)

Section ScatterFacts.
Context `{W : World}.

(** What the [switch] leaves alone, whichever way it is left. *)
Lemma scatterSwitch_frame fr prevEdge ex fr1 :
  scatterSwitch fr prevEdge = OK (ex, fr1) ->
  bounce (f_state fr1) = bounce (f_state fr) /\
  throughput (f_this fr1) = throughput (f_this fr) /\
  sameUpToPdfBackward (f_prev fr) (f_prev fr1) /\
  (ex <> Return true -> f_next fr1 = f_next fr /\ f_nextEdge fr1 = f_nextEdge fr).
Proof.
  destruct fr as [[k thr pf pb] st prev next nextEdge].
  unfold scatterSwitch. cbn [f_this f_state f_prev kind].
  intros Hsw. destruct k; split_matches Hsw; inversion Hsw; subst; clear Hsw;
    cbn; repeat split; try reflexivity; try congruence;
    try (destruct prev; cbn; tauto).
Qed.

(** When the [switch] is left by [break], the vertex is not a root and the
    local [pdf] is what [pdf()] answers on the vertex as sampling left it. *)
Lemma scatterSwitch_break fr prevEdge p fr1 :
  scatterSwitch fr prevEdge = OK (Break p, fr1) ->
  isRoot (f_this fr) = false /\ p = pdf (f_this fr1).
Proof.
  destruct fr as [[k thr pf pb] st prev next nextEdge].
  unfold scatterSwitch. cbn [f_this f_state f_prev kind].
  intros Hsw. destruct k; split_matches Hsw; inversion Hsw; subst; clear Hsw;
    split; reflexivity.
Qed.

(** A [return true] inside the [switch] happens on roots only. *)
Lemma scatterSwitch_return_true fr prevEdge fr1 :
  scatterSwitch fr prevEdge = OK (Return true, fr1) -> isRoot (f_this fr) = true.
Proof.
  destruct fr as [[k thr pf pb] st prev next nextEdge].
  unfold scatterSwitch. cbn [f_this f_state f_prev kind].
  intros Hsw. destruct k; split_matches Hsw; inversion Hsw; reflexivity.
Qed.

(** The tail on a miss and on a hit. *)
Lemma tracingTail_miss p fr nextAddr :
  fst (fst (fst (scene_intersect (ray (f_state fr))))) = false ->
  exists fr', tracingTail p fr nextAddr = (false, fr') /\
    f_this fr' = f_this fr /\ f_prev fr' = f_prev fr /\ f_next fr' = f_next fr /\
    f_nextEdge fr' = f_nextEdge fr /\ bounce (f_state fr') = bounce (f_state fr).
Proof.
  unfold tracingTail. destruct (scene_intersect _) as [[[hit ry] data] info].
  cbn. intros ->. cbn. eexists; repeat split.
Qed.

Lemma tracingTail_hit p fr nextAddr :
  fst (fst (fst (scene_intersect (ray (f_state fr))))) = true ->
  exists fr', tracingTail p fr nextAddr = (true, fr') /\
    f_this fr' = f_this fr /\ f_prev fr' = f_prev fr /\
    isSurface (f_next fr') = true /\
    eventInfo (f_next fr') = Some (InfoOfVertex nextAddr) /\
    throughput (f_next fr') = vmul (throughput (f_this fr)) (weight (f_this fr)) /\
    bounce (f_state fr') = (bounce (f_state fr) + 1)%Z /\
    f_nextEdge fr' = PathEdge_of (f_this fr) (f_next fr') /\
    pdfForward (f_next fr') =
      p * cosineFactor (f_next fr') (d (f_nextEdge fr')) / rSq (f_nextEdge fr').
Proof.
  unfold tracingTail. destruct (scene_intersect _) as [[[hit ry] data] info].
  cbn. intros ->. cbn. eexists; repeat split.
Qed.

End ScatterFacts.

Section ScatterClaims.
Context `{W : World}.

(** C3.  A vertex whose [switch] is left by [break] (so: not a root) enters
    the shared tracing tail with the local [pdf] of its sampling step.  When
    the scene intersection fails, [scatter] returns false.  Otherwise it
    returns true, [next] is a surface vertex whose throughput is this
    vertex's throughput times its [weight()], the bounce counter has grown by
    one, [nextEdge] is [PathEdge(this, next)], and [next.pdfForward] is
    [pdf * next.cosineFactor(nextEdge.d) / nextEdge.rSq]. *)
Theorem scatter_shared_tracing_tail fr prevEdge nextAddr p fr1 :
  scatterSwitch fr prevEdge = OK (Break p, fr1) ->
  let didHit := fst (fst (fst (scene_intersect (ray (f_state fr1))))) in
  isRoot (f_this fr) = false /\
  p = pdf (f_this fr1) /\
  throughput (f_this fr1) = throughput (f_this fr) /\
  (didHit = false -> exists fr', scatter fr prevEdge nextAddr = OK (false, fr')) /\
  (didHit = true ->
   exists fr', scatter fr prevEdge nextAddr = OK (true, fr') /\
     f_this fr' = f_this fr1 /\
     isSurface (f_next fr') = true /\
     throughput (f_next fr') = vmul (throughput (f_this fr')) (weight (f_this fr')) /\
     bounce (f_state fr') = (bounce (f_state fr) + 1)%Z /\
     f_nextEdge fr' = PathEdge_of (f_this fr') (f_next fr') /\
     pdfForward (f_next fr') =
       p * cosineFactor (f_next fr') (d (f_nextEdge fr')) / rSq (f_nextEdge fr')).
Proof.
  intros Hsw didHit.
  destruct (scatterSwitch_break _ _ _ _ Hsw) as [Hroot Hp].
  destruct (scatterSwitch_frame _ _ _ _ Hsw) as (Hb & Hthr & _ & _).
  repeat split; try assumption.
  - intros Hmiss. destruct (tracingTail_miss p fr1 nextAddr Hmiss) as (fr' & Ht & _).
    exists fr'. unfold scatter. rewrite Hsw. cbn. by rewrite Ht.
  - intros Hhit.
    destruct (tracingTail_hit p fr1 nextAddr Hhit)
      as (fr' & Ht & Hthis & _ & Hsurf & _ & Hnt & Hbounce & Hedge & Hpf).
    exists fr'. unfold scatter. rewrite Hsw. cbn. rewrite Ht, Hthis, Hbounce, Hb.
    repeat split; assumption.
Qed.

(** C6.  When [scatter] returns false, [next] and [nextEdge] hold what they
    held before the call, [*prev] differs from its old value in [pdfBackward]
    at most, and [state.bounce] is unchanged. *)
Theorem scatter_failure_frame fr prevEdge nextAddr fr' :
  scatter fr prevEdge nextAddr = OK (false, fr') ->
  f_next fr' = f_next fr /\
  f_nextEdge fr' = f_nextEdge fr /\
  sameUpToPdfBackward (f_prev fr) (f_prev fr') /\
  bounce (f_state fr') = bounce (f_state fr).
Proof.
  unfold scatter. destruct (scatterSwitch fr prevEdge) as [[ex fr1]|] eqn:Hsw; [|discriminate].
  destruct (scatterSwitch_frame _ _ _ _ Hsw) as (Hb & _ & Hprev & Hout).
  cbn. destruct ex as [b|p].
  - intros [= -> ->]. destruct Hout as [-> ->]; [discriminate|]. repeat split; assumption.
  - destruct Hout as [Hn He]; [discriminate|].
    destruct (fst (fst (fst (scene_intersect (ray (f_state fr1)))))) eqn:Hhit.
    + destruct (tracingTail_hit p fr1 nextAddr Hhit) as (fr2 & Ht & _).
      rewrite Ht. discriminate.
    + destruct (tracingTail_miss p fr1 nextAddr Hhit)
        as (fr2 & Ht & _ & Hp2 & Hn2 & He2 & Hb2).
      rewrite Ht. intros [= <-]. rewrite Hn2, He2, Hp2, Hb2. repeat split; assumption.
Qed.

(** C8.  On a volume vertex [scatter] returns false and changes nothing,
    whatever the scene, the tracer, the state and the neighbours are. *)
Theorem scatter_volume_returns_false fr prevEdge nextAddr m record :
  kind (f_this fr) = VolumeVertex m record ->
  scatter fr prevEdge nextAddr = OK (false, fr).
Proof.
  intros Hk. unfold scatter, scatterSwitch. rewrite Hk. reflexivity.
Qed.

(** C9.  After a successful [scatter], [next] is a surface vertex exactly
    when the scattering vertex is not a root, and then the [info] pointer of
    its scatter event points into the storage of [next] itself, not into the
    record local to the call. *)
Theorem scatter_rehomes_event_info fr prevEdge nextAddr fr' :
  scatter fr prevEdge nextAddr = OK (true, fr') ->
  (isSurface (f_next fr') = true <-> isRoot (f_this fr) = false) /\
  (isSurface (f_next fr') = true ->
   eventInfo (f_next fr') = Some (InfoOfVertex nextAddr) /\
   eventInfo (f_next fr') <> Some InfoOfLocalRecord).
Proof.
  unfold scatter. destruct (scatterSwitch fr prevEdge) as [[ex fr1]|] eqn:Hsw; [|discriminate].
  cbn. destruct ex as [b|p].
  - intros [= -> ->]. pose proof (scatterSwitch_return_true _ _ _ Hsw) as Hroot.
    assert (Hns : isSurface (f_next fr') = false).
    { clear Hroot. destruct fr as [[k thr pf pb] st prev next nextEdge].
      unfold scatterSwitch in Hsw. cbn [f_this f_state f_prev kind] in Hsw.
      destruct k; split_matches Hsw; inversion Hsw; reflexivity. }
    rewrite Hns, Hroot. split; [split; discriminate | discriminate].
  - destruct (scatterSwitch_break _ _ _ _ Hsw) as [Hroot _].
    destruct (fst (fst (fst (scene_intersect (ray (f_state fr1)))))) eqn:Hhit.
    + destruct (tracingTail_hit p fr1 nextAddr Hhit)
        as (fr2 & Ht & _ & _ & Hsurf & Hinfo & _).
      rewrite Ht. intros [= <-]. rewrite Hsurf, Hinfo, Hroot.
      split; [tauto | intros _; split; [reflexivity | discriminate]].
    + destruct (tracingTail_miss p fr1 nextAddr Hhit) as (fr2 & Ht & _).
      rewrite Ht. discriminate.
Qed.

End ScatterClaims.

(** The scatter theorems on the concrete world. *)

Lemma scatter_shared_tracing_tail_witness :
  (exists p fr1 fr',
     scatterSwitch (W := Toy.world) Toy.frameHit None = OK (Break p, fr1) /\
     scatter (W := Toy.world) Toy.frameHit None Toy.slot = OK (true, fr') /\
     isSurface (f_next fr') = true /\
     bounce (f_state fr') = 4%Z /\
     pdfForward (f_next fr') =
       p * cosineFactor (f_next fr') (d (f_nextEdge fr')) / rSq (f_nextEdge fr')) /\
  (exists p fr1 fr',
     scatterSwitch (W := Toy.world) Toy.frameMiss None = OK (Break p, fr1) /\
     scatter (W := Toy.world) Toy.frameMiss None Toy.slot = OK (false, fr')).
Proof.
  split.
  - destruct (scatter_shared_tracing_tail (W := Toy.world) Toy.frameHit None Toy.slot _ _ eq_refl)
      as (_ & _ & _ & _ & Hhit).
    destruct (Hhit eq_refl) as (fr' & Hs & _ & Hsurf & _ & Hb & _ & Hpf).
    eexists _, _, fr'. split; [reflexivity|]. repeat split; assumption.
  - destruct (scatter_shared_tracing_tail (W := Toy.world) Toy.frameMiss None Toy.slot _ _ eq_refl)
      as (_ & _ & _ & Hmiss & _).
    destruct (Hmiss eq_refl) as (fr' & Hs).
    eexists _, _, fr'. split; [reflexivity | exact Hs].
Defined.

Lemma scatter_failure_frame_witness :
  exists fr',
    scatter (W := Toy.world) Toy.frameMiss None Toy.slot = OK (false, fr') /\
    f_next fr' = Toy.cameraRoot /\
    f_nextEdge fr' = Toy.unitEdge /\
    sameUpToPdfBackward (Some Toy.emitterRoot) (f_prev fr') /\
    bounce (f_state fr') = 3%Z.
Proof.
  eexists. split; [reflexivity|].
  exact (scatter_failure_frame (W := Toy.world) Toy.frameMiss None Toy.slot _ eq_refl).
Defined.

Lemma scatter_volume_returns_false_witness :
  scatter (W := Toy.world) Toy.frameVolume (Some Toy.unitEdge) Toy.slot
  = OK (false, Toy.frameVolume).
Proof.
  exact (scatter_volume_returns_false (W := Toy.world) Toy.frameVolume (Some Toy.unitEdge)
           Toy.slot _ _ eq_refl).
Defined.

Lemma scatter_rehomes_event_info_witness :
  exists fr',
    scatter (W := Toy.world) Toy.frameSurface (Some Toy.unitEdge) Toy.slot = OK (true, fr') /\
    isSurface (f_next fr') = true /\
    eventInfo (f_next fr') = Some (InfoOfVertex Toy.slot).
Proof.
  eexists. split; [reflexivity|].
  pose proof (scatter_rehomes_event_info (W := Toy.world) Toy.frameSurface
                (Some Toy.unitEdge) Toy.slot _ eq_refl) as [Hiff Hinfo].
  split; [apply Hiff; reflexivity | apply Hinfo, Hiff; reflexivity].
Defined.

(** ** Properties of the connections *)

Section ConnectClaims.
Context `{W : World}.

(** C4.  With [edge = PathEdge(a, b)]: when the shadow ray from [a.pos()]
    along [edge.d] over the window [[1e-4, edge.r * (1 - 1e-4)]] is
    occluded, [connect] returns the zero colour; otherwise it returns
    [a.throughput * a.eval(d) * b.eval(-d) * b.throughput / edge.rSq]. *)
Theorem connect_occlusion_and_throughput a b :
  let edge := PathEdge_of a b in
  let shadow := Ray4 (pos a) (d edge) (1 # 10000) (r edge * (1 - (1 # 10000))) in
  (scene_occluded shadow = true -> connect a b = Vec3f_splat 0) /\
  (scene_occluded shadow = false ->
   connect a b =
     vdivs (vmul (vmul (vmul (throughput a) (eval a (d edge))) (eval b (vneg (d edge))))
              (throughput b))
       (rSq edge)).
Proof.
  cbv zeta. unfold connect, shadowRay. split; intros ->; reflexivity.
Qed.

(** C7.  The camera-splat overload returns false when the shadow ray is
    occluded, and when [evalDirection] of the camera of [a] answers false;
    whenever it returns false the [weight] parameter holds what it held
    before the call. *)
Theorem connect_splat_failure a b smp weightOut pixel :
  let edge := PathEdge_of a b in
  let shadow := Ray4 (pos a) (d edge) (1 # 10000) (r edge * (1 - (1 # 10000))) in
  (scene_occluded shadow = true ->
   connect_splat a b smp weightOut pixel = OK (false, (smp, weightOut, pixel))) /\
  (forall c record,
     scene_occluded shadow = false ->
     kind a = CameraVertex c record ->
     fst (fst (fst (camera_evalDirection c smp (cam_point record)
                      (DirectionSample_of (d edge)) pixel))) = false ->
     exists g px, connect_splat a b smp weightOut pixel = OK (false, (g, weightOut, px))) /\
  (forall g w px,
     connect_splat a b smp weightOut pixel = OK (false, (g, w, px)) -> w = weightOut).
Proof.
  cbv zeta. unfold connect_splat, shadowRay. repeat split.
  - intros ->. reflexivity.
  - intros c record -> ->.
    destruct (camera_evalDirection _ _ _ _ _) as [[[ok g] sw] px]. cbn.
    intros ->. cbn. eauto.
  - intros g w px Hc. split_matches Hc; congruence.
Qed.

End ConnectClaims.

Section ConnectWitnesses.
#[local] Existing Instance Toy.handles.
#[local] Existing Instance Toy.world.

Lemma connect_occlusion_and_throughput_witness :
  connect (W := Toy.world) Toy.origin Toy.below = Vec3f_splat 0 /\
  connect (W := Toy.world) Toy.origin (Toy.surfaceVertex 1) =
    vdivs (vmul (vmul (vmul (Vec3f_splat 2) (eval Toy.origin (d (PathEdge_of Toy.origin (Toy.surfaceVertex 1)))))
                   (eval (Toy.surfaceVertex 1) (vneg (d (PathEdge_of Toy.origin (Toy.surfaceVertex 1))))))
             (Vec3f_splat 1))
      (rSq (PathEdge_of Toy.origin (Toy.surfaceVertex 1))).
Proof.
  split.
  - apply (proj1 (connect_occlusion_and_throughput (W := Toy.world) Toy.origin Toy.below)).
    vm_compute. reflexivity.
  - apply (proj2 (connect_occlusion_and_throughput (W := Toy.world) Toy.origin
                    (Toy.surfaceVertex 1))).
    vm_compute. reflexivity.
Defined.

Lemma connect_splat_failure_witness :
  connect_splat (W := Toy.world) (Toy.cameraVertex 0 Toy.axisX) Toy.below 0%nat
    (Vec3f_splat 5) (1%N, 2%N)
  = OK (false, (0%nat, Vec3f_splat 5, (1%N, 2%N))) /\
  (exists g px,
     connect_splat (W := Toy.world) (Toy.cameraVertex 0 Toy.axisX) Toy.behind 0%nat
       (Vec3f_splat 5) (1%N, 2%N)
     = OK (false, (g, Vec3f_splat 5, px))).
Proof.
  split.
  - apply (proj1 (connect_splat_failure (W := Toy.world) (Toy.cameraVertex 0 Toy.axisX)
                    Toy.below 0%nat (Vec3f_splat 5) (1%N, 2%N))).
    vm_compute. reflexivity.
  - apply (proj1 (proj2 (connect_splat_failure (W := Toy.world) (Toy.cameraVertex 0 Toy.axisX)
                           Toy.behind 0%nat (Vec3f_splat 5) (1%N, 2%N)))
             1%nat (mkCameraRecord (3%N, 4%N) (Toy.pointAt 0) (Toy.dirSample Toy.axisX))).
    + vm_compute. reflexivity.
    + reflexivity.
    + vm_compute. reflexivity.
Defined.

End ConnectWitnesses.

(** ** Properties of [evalPdfs] *)

Lemma sized_arrayOf n m b : sized n m -> length (arrayOf m b) = n.
Proof. intros [HF HB]. by destruct b. Qed.

Lemma store_sized n p v m m' : store p v m = OK m' -> sized n m -> sized n m'.
Proof.
  intros Hs [HF HB]. split.
  - rewrite <- HF. apply (store_length p v m m' ForwardArr Hs).
  - rewrite <- HB. apply (store_length p v m m' BackwardArr Hs).
Qed.

Lemma store_ok_sized n b i v m :
  sized n m -> (i < n)%nat -> exists m', store (Some (b, i)) v m = OK m' /\ sized n m'.
Proof.
  intros Hsz Hi. eexists. split.
  - apply store_in_bounds. by rewrite (sized_arrayOf n).
  - eapply store_sized; [|exact Hsz]. apply store_in_bounds. by rewrite (sized_arrayOf n).
Qed.

Section EvalPdfsFacts.
Context `{W : World}.

(** With both neighbours present and both pointers inside the arrays,
    [evalPdfs] completes on every kind of vertex. *)
Lemma evalPdfs_ok n this prev prevEdge next nextEdge fb fi bb bi m :
  sized n m -> (fi < n)%nat -> (bi < n)%nat ->
  exists m',
    evalPdfs this (Some prev) (Some prevEdge) next nextEdge (Some (fb, fi)) (Some (bb, bi)) m
    = OK m' /\ sized n m'.
Proof.
  intros Hsz Hf Hb. unfold evalPdfs.
  destruct (kind this); cbn [deref rbind].
  1,2: by apply store_ok_sized.
  1-4: edestruct (store_ok_sized n fb fi) as (m1 & -> & Hsz1); [exact Hsz | exact Hf |];
       cbn [rbind]; by apply store_ok_sized.
  edestruct (store_ok_sized n bb bi) as (m1 & -> & Hsz1); [exact Hsz | exact Hb |].
  cbn [rbind]. by apply store_ok_sized.
Qed.

(** A root writes through [forward] only. *)
Lemma evalPdfs_root n this prev prevEdge next nextEdge fb fi backward m :
  isRoot this = true -> sized n m -> (fi < n)%nat ->
  exists m',
    evalPdfs this prev prevEdge next nextEdge (Some (fb, fi)) backward m = OK m' /\
    sized n m'.
Proof.
  intros Hroot Hsz Hf. unfold evalPdfs, isRoot in *.
  destruct (kind this); try discriminate; by apply store_ok_sized.
Qed.

(** Every other kind writes through [backward] (or reads a neighbour):
    with a null [backward] the call dereferences a null pointer. *)
Lemma evalPdfs_null_backward n this prev prevEdge next nextEdge fb fi m :
  isRoot this = false -> sized n m -> (fi < n)%nat ->
  evalPdfs this prev prevEdge next nextEdge (Some (fb, fi)) None m = Fault NullDeref.
Proof.
  intros Hroot Hsz Hf. unfold evalPdfs, isRoot in *.
  destruct (kind this); try discriminate; try reflexivity.
  1,2: edestruct (store_ok_sized n fb fi) as (m1 & -> & _); [exact Hsz | exact Hf |];
       reflexivity.
  1,2: destruct prevEdge; [|reflexivity]; cbn [deref rbind];
       edestruct (store_ok_sized n fb fi) as (m1 & -> & _); [exact Hsz | exact Hf |];
       cbn [rbind]; destruct prev; reflexivity.
Qed.

(** C5.  On a surface vertex with neighbours [prev], [next] and edges
    [prevEdge], [nextEdge], [evalPdfs] completes; it leaves in [*backward]
    the bsdf pdf of the pair (next direction, prev direction) times
    [prev.cosineFactor(prevEdge.d) / prevEdge.rSq], and in [*forward] (when
    the two pointers differ) the bsdf pdf of the pair (prev direction, next
    direction) times [next.cosineFactor(nextEdge.d) / nextEdge.rSq]: the
    cosine and the squared distance are those of the vertex the transition
    arrives at. *)
Theorem evalPdfs_surface_receiving_vertex
    this b record prev prevEdge next nextEdge fb fi bb bi m :
  kind this = SurfaceVertex b record ->
  (fi < length (arrayOf m fb))%nat ->
  (bi < length (arrayOf m bb))%nat ->
  let event := sr_event record in
  let dPrev := toLocal (ev_frame event) (vneg (d prevEdge)) in
  let dNext := toLocal (ev_frame event) (d nextEdge) in
  exists m',
    evalPdfs this (Some prev) (Some prevEdge) next nextEdge (Some (fb, fi)) (Some (bb, bi)) m
    = OK m' /\
    arrayOf m' bb !! bi =
      Some (bsdf_pdf b (makeWarpedQuery event dNext dPrev) *
            cosineFactor prev (d prevEdge) / rSq prevEdge) /\
    ((fb, fi) <> (bb, bi) ->
     arrayOf m' fb !! fi =
       Some (bsdf_pdf b (makeWarpedQuery event dPrev dNext) *
             cosineFactor next (d nextEdge) / rSq nextEdge)).
Proof.
  intros Hk Hf Hb event dPrev dNext. unfold evalPdfs. rewrite Hk. cbn [deref rbind].
  rewrite (store_in_bounds m fb fi) by exact Hf. cbn [rbind].
  set (m1 := setArray m fb _).
  assert (Hb1 : (bi < length (arrayOf m1 bb))%nat).
  { unfold m1. destruct fb, bb; cbn; rewrite ?length_insert; exact Hb. }
  rewrite (store_in_bounds m1 bb bi) by exact Hb1.
  eexists. split; [reflexivity|]. split.
  - by apply store_lookup_same.
  - intros Hne. rewrite store_lookup_other by congruence.
    unfold m1. by apply store_lookup_same.
Qed.

(** An endpoint vertex stores 1 through [backward]. *)
Lemma evalPdfs_endpoint_backward this prev prevEdge next nextEdge fb fi bb bi m :
  isEndpoint this = true ->
  (fi < length (arrayOf m fb))%nat ->
  (bi < length (arrayOf m bb))%nat ->
  exists m',
    evalPdfs this prev prevEdge next nextEdge (Some (fb, fi)) (Some (bb, bi)) m = OK m' /\
    arrayOf m' bb !! bi = Some 1.
Proof.
  intros Hk Hf Hb. unfold evalPdfs, isEndpoint in *.
  destruct (kind this); try discriminate.
  all: rewrite (store_in_bounds m fb fi) by exact Hf; cbn [rbind];
    match goal with |- context [store _ _ ?m1] =>
      assert (Hb1 : (bi < length (arrayOf m1 bb))%nat)
        by (destruct fb, bb; cbn; rewrite ?length_insert; exact Hb);
      rewrite (store_in_bounds m1 bb bi) by exact Hb1
    end;
    eexists; split; [reflexivity | by apply store_lookup_same].
Qed.

End EvalPdfsFacts.

(** ** Properties of [misWeight]: the pointers *)

Lemma forEach_ok {St : Type} (P : St -> Prop) idx (body : nat -> St -> result St) st :
  P st ->
  (forall i st0, In i idx -> P st0 -> exists st1, body i st0 = OK st1 /\ P st1) ->
  exists st', forEach idx body st = OK st' /\ P st'.
Proof.
  revert st. induction idx as [|i idx IH]; intros st HP Hbody; cbn.
  - eauto.
  - destruct (Hbody i st (or_introl eq_refl) HP) as (st1 & -> & HP1). cbn.
    apply IH; [exact HP1|]. intros j st0 Hj. apply Hbody. by right.
Qed.

Section PathFacts.
Context {H : Handles}.

Lemma vertexAt_ok (p : LightPath) i :
  (i < length (vertices p))%nat -> exists v, vertexAt p i = OK v.
Proof.
  intros Hi. unfold vertexAt.
  destruct (lookup_lt_is_Some_2 (vertices p) i Hi) as [v ->]. eauto.
Qed.

Lemma edgeAt_ok (p : LightPath) i :
  (i < length (edges p))%nat -> exists e, edgeAt p i = OK e.
Proof.
  intros Hi. unfold edgeAt.
  destruct (lookup_lt_is_Some_2 (edges p) i Hi) as [e ->]. eauto.
Qed.

End PathFacts.

Section MisWeightPointers.
Context `{W : World}.

Lemma misWeight_of_nat camera emitter (s t : nat) :
  misWeight camera emitter (Z.of_nat s) (Z.of_nat t) = misWeightAt camera emitter s t.
Proof.
  unfold misWeight.
  destruct (Z.ltb_spec (Z.of_nat s) 0); [lia|].
  destruct (Z.ltb_spec (Z.of_nat t) 0); [lia|].
  cbn. by rewrite !Nat2Z.id.
Qed.

(** The fill loops write inside the arrays. *)
Lemma fillScratch_ok camera emitter s t :
  (s < length (vertices emitter))%nat -> (t < length (vertices camera))%nat ->
  exists m, fillScratch camera emitter s t = OK m /\ sized ((s + 1) + (t + 1)) m.
Proof.
  intros Hs Ht. unfold fillScratch.
  set (n := ((s + 1) + (t + 1))%nat).
  edestruct (forEach_ok (sized n) (seq 0 (s + 1))) as (m1 & -> & Hsz1); cycle 2.
  - cbn [rbind]. apply forEach_ok; [exact Hsz1|].
    intros i m0 Hi Hsz0. apply in_seq in Hi.
    destruct (vertexAt_ok camera i) as [v ->]; [lia|]. cbn [rbind].
    destruct (store_ok_sized n ForwardArr (n - 1 - i) (pdfBackward v) m0)
      as (m2 & -> & Hsz2); [exact Hsz0 | unfold n; lia |].
    cbn [rbind]. apply store_ok_sized; [exact Hsz2 | unfold n; lia].
  - split; apply length_replicate.
  - intros i m0 Hi Hsz0. apply in_seq in Hi.
    destruct (vertexAt_ok emitter i) as [v ->]; [lia|]. cbn [rbind].
    destruct (store_ok_sized n ForwardArr i (pdfForward v) m0)
      as (m2 & -> & Hsz2); [exact Hsz0 | unfold n; lia |].
    cbn [rbind]. apply store_ok_sized; [exact Hsz2 | unfold n; lia].
Qed.

(** With [s >= 1] and [t >= 1] the four pointers are inside the arrays and
    [misWeight] completes. *)
Lemma misScratch_ok camera emitter s t :
  indexable camera emitter s t -> (1 <= s)%nat -> (1 <= t)%nat ->
  exists m, misScratch camera emitter s t = OK m /\ sized ((s + 1) + (t + 1)) m.
Proof.
  intros (Hvs & Hes & Hvt & Het) Hs1 Ht1. unfold misScratch.
  destruct (fillScratch_ok camera emitter s t Hvs Hvt) as (m0 & -> & Hsz0).
  destruct (vertexAt_ok emitter s Hvs) as [es ->].
  destruct (vertexAt_ok camera t Hvt) as [ct ->].
  destruct (vertexAt_ok emitter (s - 1)) as [ep Hep]; [lia|].
  destruct (edgeAt_ok emitter (s - 1)) as [ee Hee]; [lia|].
  destruct (vertexAt_ok camera (t - 1)) as [cp Hcp]; [lia|].
  destruct (edgeAt_ok camera (t - 1)) as [ce Hce]; [lia|].
  unfold unlessZero, emitterForwardPtr, emitterBackwardPtr, cameraForwardPtr,
    cameraBackwardPtr.
  destruct (Nat.eqb_spec s 0); [lia|]. destruct (Nat.eqb_spec t 0); [lia|].
  rewrite Hep, Hee, Hcp, Hce. cbn [rbind].
  edestruct (evalPdfs_ok ((s + 1) + (t + 1)) es ep ee ct) as (m1 & -> & Hsz1);
    [exact Hsz0 | lia | lia |].
  cbn [rbind]. apply evalPdfs_ok; [exact Hsz1 | lia | lia].
Qed.

(** With [s = 0] and a vertex [emitter[0]] that is not a root, the first
    [evalPdfs] call dereferences a null pointer. *)
Lemma misScratch_null_emitter camera emitter t e0 :
  indexable camera emitter 0 t ->
  vertexAt emitter 0 = OK e0 -> isRoot e0 = false ->
  misScratch camera emitter 0 t = Fault NullDeref.
Proof.
  intros (Hvs & Hes & Hvt & Het) He0 Hroot. unfold misScratch.
  destruct (fillScratch_ok camera emitter 0 t Hvs Hvt) as (m0 & -> & Hsz0).
  rewrite He0. destruct (vertexAt_ok camera t Hvt) as [ct ->].
  cbn [rbind unlessZero Nat.eqb].
  unfold emitterForwardPtr, emitterBackwardPtr. cbn [Nat.eqb].
  erewrite evalPdfs_null_backward; [reflexivity | exact Hroot | exact Hsz0 | lia].
Qed.

(** With [t = 0] and a vertex [camera[0]] that is not a root, one of the two
    [evalPdfs] calls dereferences a null pointer. *)
Lemma misScratch_null_camera camera emitter s c0 :
  indexable camera emitter s 0 ->
  vertexAt camera 0 = OK c0 -> isRoot c0 = false ->
  misScratch camera emitter s 0 = Fault NullDeref.
Proof.
  intros (Hvs & Hes & Hvt & Het) Hc0 Hroot. unfold misScratch.
  destruct (fillScratch_ok camera emitter s 0 Hvs Hvt) as (m0 & -> & Hsz0).
  destruct (vertexAt_ok emitter s Hvs) as [es ->]. rewrite Hc0.
  cbn [rbind unlessZero Nat.eqb].
  unfold emitterForwardPtr, emitterBackwardPtr, cameraForwardPtr, cameraBackwardPtr.
  cbn [Nat.eqb]. unfold unlessZero.
  destruct (Nat.eqb_spec s 0) as [->|Hs].
  - cbn [rbind]. destruct (isRoot es) eqn:Hes0.
    + edestruct (evalPdfs_root ((0 + 1) + (0 + 1)) es None None c0) as (m1 & -> & Hsz1);
        [exact Hes0 | exact Hsz0 | lia |].
      cbn [rbind].
      erewrite evalPdfs_null_backward; [reflexivity | exact Hroot | exact Hsz1 | lia].
    + erewrite evalPdfs_null_backward; [reflexivity | exact Hes0 | exact Hsz0 | lia].
  - destruct (vertexAt_ok emitter (s - 1)) as [ep ->]; [lia|].
    destruct (edgeAt_ok emitter (s - 1)) as [ee ->]; [lia|].
    cbn [rbind].
    edestruct (evalPdfs_ok ((s + 1) + (0 + 1)) es ep ee c0) as (m1 & -> & Hsz1);
      [exact Hsz0 | lia | lia |].
    cbn [rbind].
    erewrite evalPdfs_null_backward; [reflexivity | exact Hroot | exact Hsz1 | lia].
Qed.

End MisWeightPointers.

Section NullPointerClaim.
Context `{W : World}.

(** C10.  An emitter or camera endpoint stores 1 through [backward],
    whatever its neighbours are.  [misWeight] passes a null [backward] to
    [emitter[s].evalPdfs] when [s = 0] and to [camera[t].evalPdfs] when
    [t = 0].  Hence, on paths that hold the indexed vertices and edges: with
    [s >= 1] and [t >= 1] the four pointers point inside the arrays of
    [(s+1)+(t+1)] floats and the call returns; with [s = 0] and an emitter
    endpoint at [emitter[0]], or [t = 0] and a camera endpoint at
    [camera[0]], the call writes through a null pointer. *)
Theorem misWeight_backward_pointer_safety camera emitter (s t : nat) :
  indexable camera emitter s t ->
  (forall this prev prevEdge next nextEdge fb fi bb bi m,
     isEndpoint this = true ->
     (fi < length (arrayOf m fb))%nat -> (bi < length (arrayOf m bb))%nat ->
     exists m',
       evalPdfs this prev prevEdge next nextEdge (Some (fb, fi)) (Some (bb, bi)) m = OK m' /\
       arrayOf m' bb !! bi = Some 1) /\
  (emitterBackwardPtr 0 = None /\ cameraBackwardPtr s 0 = None) /\
  ((1 <= s)%nat -> (1 <= t)%nat ->
   Forall (pointsInside ((s + 1) + (t + 1)))
     [emitterForwardPtr s; emitterBackwardPtr s; cameraForwardPtr s; cameraBackwardPtr s t] /\
   exists w, misWeight camera emitter (Z.of_nat s) (Z.of_nat t) = OK w) /\
  (forall e0 e record,
     s = 0%nat -> vertexAt emitter 0 = OK e0 -> kind e0 = EmitterVertex e record ->
     misWeight camera emitter (Z.of_nat s) (Z.of_nat t) = Fault NullDeref) /\
  (forall c0 c record,
     t = 0%nat -> vertexAt camera 0 = OK c0 -> kind c0 = CameraVertex c record ->
     misWeight camera emitter (Z.of_nat s) (Z.of_nat t) = Fault NullDeref).
Proof.
  intros Hidx. split; [|split; [|split; [|split]]].
  - intros. by apply evalPdfs_endpoint_backward.
  - split; reflexivity.
  - intros Hs Ht. split.
    + unfold emitterForwardPtr, emitterBackwardPtr, cameraForwardPtr, cameraBackwardPtr.
      destruct (Nat.eqb_spec s 0); [lia|]. destruct (Nat.eqb_spec t 0); [lia|].
      repeat constructor; eexists _, _; (split; [reflexivity | lia]).
    + rewrite misWeight_of_nat. unfold misWeightAt.
      destruct (misScratch_ok camera emitter s t Hidx Hs Ht) as (m & -> & _).
      cbn. eauto.
  - intros e0 e record -> He0 Hk. rewrite misWeight_of_nat. unfold misWeightAt.
    rewrite (misScratch_null_emitter camera emitter t e0 Hidx He0); [reflexivity|].
    unfold isRoot. by rewrite Hk.
  - intros c0 c record -> Hc0 Hk. rewrite misWeight_of_nat. unfold misWeightAt.
    rewrite (misScratch_null_camera camera emitter s c0 Hidx Hc0); [reflexivity|].
    unfold isRoot. by rewrite Hk.
Qed.

End NullPointerClaim.

Section NullPointerWitness.
#[local] Existing Instance Toy.handles.
#[local] Existing Instance Toy.world.

Lemma misWeight_backward_pointer_safety_witness :
  (exists w, misWeight (Toy.cameraPath 2 1) (Toy.emitterPath 1) 1 1 = OK w) /\
  misWeight Toy.cameraPathNoRoot Toy.emitterPathNoRoot 0 1 = Fault NullDeref /\
  misWeight Toy.cameraPathNoRoot Toy.emitterPathNoRoot 1 0 = Fault NullDeref.
Proof.
  assert (Hi11 : indexable (Toy.cameraPath 2 1) (Toy.emitterPath 1) 1 1)
    by (repeat split; cbn; lia).
  assert (Hi01 : indexable Toy.cameraPathNoRoot Toy.emitterPathNoRoot 0 1)
    by (repeat split; cbn; lia).
  assert (Hi10 : indexable Toy.cameraPathNoRoot Toy.emitterPathNoRoot 1 0)
    by (repeat split; cbn; lia).
  split; [|split].
  - destruct (misWeight_backward_pointer_safety _ _ 1 1 Hi11) as (_ & _ & Hok & _).
    destruct (Hok ltac:(lia) ltac:(lia)) as [_ Hw]. exact Hw.
  - destruct (misWeight_backward_pointer_safety _ _ 0 1 Hi01) as (_ & _ & _ & Hnull & _).
    exact (Hnull _ _ _ eq_refl eq_refl eq_refl).
  - destruct (misWeight_backward_pointer_safety _ _ 1 0 Hi10) as (_ & _ & _ & _ & Hnull).
    exact (Hnull _ _ _ eq_refl eq_refl eq_refl).
Defined.

End NullPointerWitness.

(** ** Properties of [misWeight]: the accumulation *)


Lemma sumQ_map_mult c l : sumQ (map (Qmult c) l) == c * sumQ l.
Proof.
  induction l as [|x l IH]; cbn [sumQ map].
  - ring.
  - rewrite IH. ring.
Qed.




(** The n-th running product is the product of the first n+1 ratios. *)
Lemma runningProducts_nth ratio idx n :
  (n < length idx)%nat ->
  nth n (runningProducts ratio idx) 0 == prodQ (map ratio (take (S n) idx)).
Proof.
  revert n. induction idx as [|i idx IH]; intros n Hn; [cbn in Hn; lia|].
  destruct n as [|n]; cbn [runningProducts nth take map prodQ].
  - destruct idx; cbn [take map prodQ]; ring.
  - cbn in Hn. rewrite <- (IH n) by lia.
    destruct (Nat.lt_ge_cases n (length (runningProducts ratio idx))) as [Hlt|Hge].
    + rewrite (nth_indep _ 0 (ratio i * 0)) by (by rewrite length_map).
      rewrite (map_nth (Qmult (ratio i))). reflexivity.
    + rewrite !nth_overflow by (rewrite ?length_map; lia). ring.
Qed.

Lemma runningProducts_length ratio idx :
  length (runningProducts ratio idx) = length idx.
Proof.
  induction idx as [|i idx IH]; cbn; [reflexivity|]. by rewrite length_map, IH.
Qed.

(** The loop adds to [weight] the running products, each scaled by the
    [pi] the loop started from. *)
Lemma accumulate_spec ratio idx w p :
  fst (accumulate ratio idx (w, p)) == w + p * sumQ (runningProducts ratio idx).
Proof.
  revert w p. induction idx as [|i idx IH]; intros w p;
    cbn [accumulate runningProducts sumQ fst snd].
  - ring.
  - rewrite IH, sumQ_map_mult. ring.
Qed.

Lemma accumulate_ext ratio ratio' idx acc :
  (forall i, In i idx -> ratio i = ratio' i) ->
  accumulate ratio idx acc = accumulate ratio' idx acc.
Proof.
  revert acc. induction idx as [|i idx IH]; intros acc Hext; cbn; [reflexivity|].
  rewrite (Hext i) by (by left). apply IH. intros j Hj. apply Hext. by right.
Qed.

Lemma misWeightSum_unfold m s t :
  misWeightSum m s t =
  1 / fst (accumulate
             (fun i => load (pdfBackwardArr m) (i + 1) / load (pdfForwardArr m) (i + 1))
             (rev (seq 1 (s - 1)))
             (fst (accumulate
                     (fun i => load (pdfForwardArr m) (i + 1) / load (pdfBackwardArr m) (i + 1))
                     (seq s t) (1, 1)),
              1)).
Proof.
  unfold misWeightSum.
  destruct (accumulate _ (seq s t) _) as [w1 p1]. cbn [fst].
  destruct (accumulate _ (rev _) _) as [w2 p2]. reflexivity.
Qed.

Lemma misWeightSum_specWeight m s t :
  misWeightSum m s t == 1 / specWeight (load (pdfForwardArr m)) (load (pdfBackwardArr m)) s t.
Proof.
  rewrite misWeightSum_unfold, !accumulate_spec. unfold specWeight.
  apply Qdiv_comp; [reflexivity|]. ring.
Qed.

Lemma load_insert_ne l i j x : i <> j -> load (<[i := x]> l) j = load l j.
Proof.
  intros Hne. unfold load. rewrite !nth_lookup. by rewrite list_lookup_insert_ne.
Qed.

(** For [s >= 1] the loops never read slot 1 of either array. *)
Lemma misWeightSum_ignores_slot_1 m s t x y :
  (1 <= s)%nat ->
  misWeightSum (mkScratch (<[1%nat := x]> (pdfForwardArr m)) (<[1%nat := y]> (pdfBackwardArr m)))
    s t
  = misWeightSum m s t.
Proof.
  intros Hs. rewrite !misWeightSum_unfold. cbn [pdfForwardArr pdfBackwardArr].
  f_equal. f_equal.
  rewrite (accumulate_ext _
             (fun i => load (pdfForwardArr m) (i + 1) / load (pdfBackwardArr m) (i + 1))
             (seq s t)).
  - apply accumulate_ext. intros i Hi. apply in_rev, in_seq in Hi.
    rewrite !load_insert_ne by lia. reflexivity.
  - intros i Hi. apply in_seq in Hi. rewrite !load_insert_ne by lia. reflexivity.
Qed.

Section AccumulationClaim.
Context `{W : World}.

(** C2.  When the two [evalPdfs] calls have completed, [misWeight] returns
    [1 / weight], where [weight] is 1 plus the running products of
    [pdfForward[i+1] / pdfBackward[i+1]] for [i = s .. s+t-1] plus the
    running products of [pdfBackward[i+1] / pdfForward[i+1]] for [i = s-1]
    down to 1.  The emitter-side accumulation stops at [i = 1]: for
    [s >= 1] the value does not depend on [pdfForward[1]] and
    [pdfBackward[1]], the ratio an [i = 0] term would multiply in. *)
Theorem misWeight_reciprocal_of_accumulated_weight camera emitter (s t : nat) m :
  misScratch camera emitter s t = OK m ->
  exists w,
    misWeight camera emitter (Z.of_nat s) (Z.of_nat t) = OK w /\
    w == 1 / specWeight (load (pdfForwardArr m)) (load (pdfBackwardArr m)) s t /\
    length (runningProducts
              (fun i => load (pdfBackwardArr m) (i + 1) / load (pdfForwardArr m) (i + 1))
              (rev (seq 1 (s - 1)))) = (s - 1)%nat /\
    ((1 <= s)%nat ->
     forall x y,
       misWeightSum
         (mkScratch (<[1%nat := x]> (pdfForwardArr m)) (<[1%nat := y]> (pdfBackwardArr m)))
         s t = w).
Proof.
  intros Hm. exists (misWeightSum m s t). repeat split.
  - rewrite misWeight_of_nat. unfold misWeightAt. by rewrite Hm.
  - apply misWeightSum_specWeight.
  - by rewrite runningProducts_length, length_rev, length_seq.
  - intros Hs x y. by apply misWeightSum_ignores_slot_1.
Qed.

End AccumulationClaim.

Section AccumulationWitness.
#[local] Existing Instance Toy.handles.
#[local] Existing Instance Toy.world.

Lemma misWeight_reciprocal_of_accumulated_weight_witness :
  exists m w,
    misScratch (Toy.cameraPath 3 1) (Toy.emitterPath 2) 2 1 = OK m /\
    misWeight (Toy.cameraPath 3 1) (Toy.emitterPath 2) 2 1 = OK w /\
    w == 1 / specWeight (load (pdfForwardArr m)) (load (pdfBackwardArr m)) 2 1.
Proof.
  destruct (misWeight_reciprocal_of_accumulated_weight
              (Toy.cameraPath 3 1) (Toy.emitterPath 2) 2 1 _ eq_refl)
    as (w & Hw & Heq & _).
  eexists _, w. split; [reflexivity|]. split; [exact Hw | exact Heq].
Defined.

End AccumulationWitness.

(** ** Properties of [misWeight]: the weights of one path *)

Section Balance.
Variables (pF pB : nat -> float) (k : nat).
Hypothesis positive : forall i, (2 <= i <= k)%nat -> 0 < pF i /\ 0 < pB i.








End Balance.

Section BalanceClaim.
Context `{W : World}.


End BalanceClaim.

Section BalanceWitness.
#[local] Existing Instance Toy.handles.
#[local] Existing Instance Toy.world.



End BalanceWitness.

Section EvalPdfsWitness.
#[local] Existing Instance Toy.handles.
#[local] Existing Instance Toy.world.

Lemma evalPdfs_surface_receiving_vertex_witness :
  exists m',
    evalPdfs (Toy.surfaceVertex 2) (Some (Toy.surfaceVertex 1)) (Some Toy.unitEdge)
      (Toy.surfaceVertex 4) (mkPathEdge Toy.axisX 2 4)
      (Some (ForwardArr, 2%nat)) (Some (BackwardArr, 0%nat)) Toy.scratch3 = OK m' /\
    pdfBackwardArr m' !! 0%nat = Some (1 * Qabs (dot Toy.axisX Toy.axisX) / 1) /\
    pdfForwardArr m' !! 2%nat = Some (1 * Qabs (dot Toy.axisX Toy.axisX) / 4).
Proof.
  destruct (evalPdfs_surface_receiving_vertex
              (Toy.surfaceVertex 2) _ _ (Toy.surfaceVertex 1) Toy.unitEdge
              (Toy.surfaceVertex 4) (mkPathEdge Toy.axisX 2 4)
              ForwardArr 2%nat BackwardArr 0%nat Toy.scratch3 eq_refl
              ltac:(cbn; lia) ltac:(cbn; lia))
    as (m' & Hm & Hb & Hf).
  exists m'. split; [exact Hm|]. split; [exact Hb|].
  apply Hf. discriminate.
Defined.

End EvalPdfsWitness.

(** * Further properties of the vertex operations *)

Section VertexExtras.
Context {H : Handles}.

(** X1.  [cosineFactor] is never negative, and it does not change when the
    direction is negated (so a reversed edge gives the same cosine). *)
Theorem cosineFactor_nonneg_even (v : PathVertex) (dir : Vec3f) :
  0 <= cosineFactor v dir /\ cosineFactor v (vneg dir) == cosineFactor v dir.
Proof.
  assert (Hdot : forall n, dot n (vneg dir) == - dot n dir).
  { intros n. unfold dot, vneg. cbn [vx vy vz]. ring. }
  unfold cosineFactor.
  destruct (kind v); try (split; [lra | reflexivity]);
    (split; [apply Qabs_nonneg | rewrite Hdot; apply Qabs_opp]).
Qed.

End VertexExtras.

Section ScatterExtras.
Context `{W : World}.

(** X2.  On a root [scatter] never reads [prev] or [prevEdge]: it returns
    whatever they are.  The predecessor, the bounce counter and the ray are
    left alone.  When it returns true, [next] is the endpoint of the root's
    emitter or camera at the sampled position, its throughput is the root's
    [weight()] (the root's own throughput is not used), its [pdfForward] is
    the pdf of the position sample, and [nextEdge] is the edge from the
    root, whose [pos()] is the zero vector, to that endpoint. *)
Theorem scatter_root_commits_endpoint fr prevEdge nextAddr :
  isRoot (f_this fr) = true ->
  exists b fr',
    scatter fr prevEdge nextAddr = OK (b, fr') /\
    f_prev fr' = f_prev fr /\
    bounce (f_state fr') = bounce (f_state fr) /\
    ray (f_state fr') = ray (f_state fr) /\
    (b = true ->
     endpointOfRoot (f_this fr') (f_next fr') /\
     throughput (f_next fr') = weight (f_this fr') /\
     Some (pdfForward (f_next fr')) = positionPdf (f_this fr') /\
     pos (f_this fr') = Vec3f_splat 0 /\
     f_nextEdge fr' = PathEdge_of (f_this fr') (f_next fr')).
Proof.
  destruct fr as [[k thr pf pb] st prev next nextEdge].
  unfold isRoot, scatter, scatterSwitch. cbn [f_this f_state f_prev kind].
  destruct k; try discriminate; intros _.
  - destruct (emitter_samplePosition _ _ _) as [[ok g] pt]. destruct ok; cbn.
    + eexists _, _. repeat split.
    + eexists _, _. split; [reflexivity|]. repeat split; discriminate.
  - destruct (camera_samplePosition _ _ _) as [[ok g] pt]. destruct ok; cbn.
    + eexists _, _. repeat split.
    + eexists _, _. split; [reflexivity|]. repeat split; discriminate.
Qed.

(** X3.  A vertex that is not a root cannot be extended without a
    predecessor: with a null [prev], [scatter] never returns true (it
    returns false when its own sampling step fails or the kind has no
    extension, and dereferences the null pointer otherwise).  A surface
    vertex needs [prevEdge] as well. *)
Theorem scatter_needs_predecessor fr prevEdge nextAddr :
  isRoot (f_this fr) = false ->
  f_prev fr = None \/ (isSurface (f_this fr) = true /\ prevEdge = None) ->
  (forall fr', scatter fr prevEdge nextAddr <> OK (true, fr')) /\
  (scatter fr prevEdge nextAddr = Fault NullDeref \/
   exists fr', scatter fr prevEdge nextAddr = OK (false, fr')).
Proof.
  destruct fr as [[k thr pf pb] st prev next nextEdge].
  unfold isRoot, isSurface, scatter, scatterSwitch. cbn [f_this f_state f_prev kind].
  intros Hroot Hnull.
  destruct k; try discriminate; cbn;
    try (split; [intros fr'; discriminate | right; eauto]).
  - destruct Hnull as [-> | [? _]]; [|discriminate].
    destruct (emitter_sampleDirection _ _ _ _) as [[ok g] dir]. destruct ok; cbn.
    + split; [intros fr'; discriminate | by left].
    + split; [intros fr'; discriminate | right; eauto].
  - destruct Hnull as [-> | [? _]]; [|discriminate].
    destruct (camera_sampleDirection _ _ _ _ _) as [[ok g] dir]. destruct ok; cbn.
    + split; [intros fr'; discriminate | by left].
    + split; [intros fr'; discriminate | right; eauto].
  - destruct (tracer_handleSurface _ _ _) as [ok io]. destruct ok; cbn.
    + destruct Hnull as [-> | [_ ->]]; cbn.
      * split; [intros fr'; discriminate | by left].
      * destruct prev; cbn; (split; [intros fr'; discriminate | by left]).
    + split; [intros fr'; discriminate | right; eauto].
Qed.

(** X4.  A successful [scatter] from a vertex that is not a root stores the
    backward pdf of its predecessor and changes nothing else in it: the
    value is 1 when the vertex is an emitter or camera endpoint, and
    [reversePdf() * prev.cosineFactor(prevEdge.d) / prevEdge.rSq], with
    [reversePdf()] taken on the vertex as [handleSurface] left it, when it
    is a surface vertex. *)
Theorem scatter_success_sets_pdfBackward fr prevEdge nextAddr fr' :
  scatter fr prevEdge nextAddr = OK (true, fr') ->
  isRoot (f_this fr) = false ->
  exists prev,
    f_prev fr = Some prev /\
    ((isEndpoint (f_this fr) = true /\ f_prev fr' = Some (setPdfBackward prev 1)) \/
     (isSurface (f_this fr) = true /\
      exists pe, prevEdge = Some pe /\
        f_prev fr' =
          Some (setPdfBackward prev
                  (reversePdf (f_this fr') * cosineFactor prev (d pe) / rSq pe)))).
Proof.
  unfold scatter. destruct (scatterSwitch fr prevEdge) as [[ex fr1]|] eqn:Hsw; [|discriminate].
  cbn. destruct ex as [b|p].
  - intros [= -> ->] Hroot.
    rewrite (scatterSwitch_return_true _ _ _ Hsw) in Hroot. discriminate.
  - intros Htail _.
    assert (Htl : f_this fr' = f_this fr1 /\ f_prev fr' = f_prev fr1).
    { destruct (fst (fst (fst (scene_intersect (ray (f_state fr1)))))) eqn:Hhit.
      - destruct (tracingTail_hit p fr1 nextAddr Hhit) as (fr2 & Ht & Hthis & Hprev & _).
        rewrite Ht in Htail. injection Htail as <-. by split.
      - destruct (tracingTail_miss p fr1 nextAddr Hhit) as (fr2 & Ht & _).
        rewrite Ht in Htail. discriminate. }
    destruct Htl as [-> ->]. clear Htail.
    destruct fr as [[k thr pf pb] st prev next nextEdge].
    unfold scatterSwitch in Hsw. cbn [f_this f_state f_prev kind] in Hsw.
    unfold isEndpoint, isSurface. cbn [f_this f_prev kind].
    destruct k; split_matches Hsw; inversion Hsw; subst; clear Hsw;
      eexists; (split; [reflexivity|]); cbn;
      first [ left; split; reflexivity
            | right; split; [reflexivity|]; eexists; split; reflexivity ].
Qed.

(** X5.  [scatter] rewrites only the record of the vertex it is called on:
    whatever it returns, the tag and sampler handle, the throughput,
    [pdfForward] and [pdfBackward] of [*this] are the ones it had. *)
Theorem scatter_keeps_own_header fr prevEdge nextAddr b fr' :
  scatter fr prevEdge nextAddr = OK (b, fr') ->
  sameTag (kind (f_this fr)) (kind (f_this fr')) /\
  throughput (f_this fr') = throughput (f_this fr) /\
  pdfForward (f_this fr') = pdfForward (f_this fr) /\
  pdfBackward (f_this fr') = pdfBackward (f_this fr).
Proof.
  unfold scatter. destruct (scatterSwitch fr prevEdge) as [[ex fr1]|] eqn:Hsw; [|discriminate].
  cbn. intros Hres.
  assert (Hthis : f_this fr' = f_this fr1).
  { destruct ex as [b0|p]; [by injection Hres as _ <-|].
    destruct (fst (fst (fst (scene_intersect (ray (f_state fr1)))))) eqn:Hhit.
    - destruct (tracingTail_hit p fr1 nextAddr Hhit) as (fr2 & Ht & Hthis & _).
      rewrite Ht in Hres. by injection Hres as _ <-.
    - destruct (tracingTail_miss p fr1 nextAddr Hhit) as (fr2 & Ht & Hthis & _).
      rewrite Ht in Hres. by injection Hres as _ <-. }
  rewrite Hthis. clear Hres Hthis.
  destruct fr as [[k thr pf pb] st prev next nextEdge].
  unfold scatterSwitch in Hsw. cbn [f_this f_state f_prev kind] in Hsw.
  destruct k; split_matches Hsw; inversion Hsw; subst; clear Hsw; cbn; repeat split.
Qed.

(** X6.  When [scatter] returns false and the predecessor is no longer what
    it was, the vertex's own sampling step had succeeded and the failure is
    a miss of the scene intersection: a failed sampling step leaves [*prev]
    untouched. *)
Theorem scatter_failure_after_write_is_a_miss fr prevEdge nextAddr fr' :
  scatter fr prevEdge nextAddr = OK (false, fr') ->
  f_prev fr' <> f_prev fr ->
  exists p fr1,
    scatterSwitch fr prevEdge = OK (Break p, fr1) /\
    fst (fst (fst (scene_intersect (ray (f_state fr1))))) = false.
Proof.
  unfold scatter. destruct (scatterSwitch fr prevEdge) as [[ex fr1]|] eqn:Hsw; [|discriminate].
  cbn. destruct ex as [b|p].
  - intros [= -> ->] Hne. exfalso. apply Hne. clear Hne.
    destruct fr as [[k thr pf pb] st prev next nextEdge].
    unfold scatterSwitch in Hsw. cbn [f_this f_state f_prev kind] in Hsw.
    destruct k; split_matches Hsw; inversion Hsw; reflexivity.
  - intros Htail _. exists p, fr1. split; [reflexivity|].
    destruct (fst (fst (fst (scene_intersect (ray (f_state fr1)))))) eqn:Hhit;
      [|reflexivity].
    destruct (tracingTail_hit p fr1 nextAddr Hhit) as (fr2 & Ht & _).
    rewrite Ht in Htail. discriminate.
Qed.

End ScatterExtras.

(** * Further properties of [evalPdfs] and the connections *)

Lemma store_frame p v m m' :
  store p v m = OK m' ->
  (forall b, length (arrayOf m' b) = length (arrayOf m b)) /\
  (forall b j, p <> Some (b, j) -> arrayOf m' b !! j = arrayOf m b !! j).
Proof.
  intros Hs. split.
  - intros b. by apply (store_length p v m m' b).
  - intros b j Hne. apply store_inv in Hs as (b0 & i & -> & _ & ->).
    apply store_lookup_other. congruence.
Qed.

Lemma store_twice_frame p1 v1 p2 v2 m m1 m2 :
  store p1 v1 m = OK m1 -> store p2 v2 m1 = OK m2 ->
  (forall b, length (arrayOf m2 b) = length (arrayOf m b)) /\
  (forall b j, p1 <> Some (b, j) -> p2 <> Some (b, j) ->
     arrayOf m2 b !! j = arrayOf m b !! j).
Proof.
  intros H1 H2. destruct (store_frame _ _ _ _ H1) as [Hl1 Hf1].
  destruct (store_frame _ _ _ _ H2) as [Hl2 Hf2]. split.
  - intros b. by rewrite Hl2, Hl1.
  - intros b j Hn1 Hn2. by rewrite Hf2, Hf1.
Qed.

Section EvalPdfsExtras.
Context `{W : World}.

(** X7.  Whatever the kind of the vertex, a call of [evalPdfs] that
    completes keeps the size of both arrays and changes no float other than
    the two its pointers name. *)
Theorem evalPdfs_writes_only_its_targets
    this prev prevEdge next nextEdge forward backward m m' :
  evalPdfs this prev prevEdge next nextEdge forward backward m = OK m' ->
  (forall b, length (arrayOf m' b) = length (arrayOf m b)) /\
  (forall b j, forward <> Some (b, j) -> backward <> Some (b, j) ->
     arrayOf m' b !! j = arrayOf m b !! j).
Proof.
  unfold evalPdfs. intros Hev.
  destruct (kind this).
  1,2: destruct (store_frame _ _ _ _ Hev) as [Hl Hf];
       split; [exact Hl | intros b j Hn _; by apply Hf].
  1,2: destruct (store forward _ m) as [m1|] eqn:H1; [|discriminate];
       cbn [rbind] in Hev; exact (store_twice_frame _ _ _ _ _ _ _ H1 Hev).
  1,2: destruct prevEdge as [pe|]; [|discriminate]; cbn [deref rbind] in Hev;
       destruct (store forward _ m) as [m1|] eqn:H1; [|discriminate];
       cbn [rbind] in Hev; destruct prev as [pv|]; [|discriminate];
       cbn [deref rbind] in Hev; exact (store_twice_frame _ _ _ _ _ _ _ H1 Hev).
  destruct (store backward _ m) as [m1|] eqn:H1; [|discriminate].
  cbn [rbind] in Hev. destruct (store_twice_frame _ _ _ _ _ _ _ H1 Hev) as [Hl Hf].
  split; [exact Hl | intros b j Hn1 Hn2; by apply Hf].
Qed.

(** X8.  On a root [evalPdfs] stores the pdf of the root's position sample
    through [forward] and does nothing else: it reads neither neighbour, and
    the float [backward] points to, if any, keeps its value. *)
Theorem evalPdfs_root_writes_forward_only
    this prev prevEdge next nextEdge fb fi backward m :
  isRoot this = true ->
  (fi < length (arrayOf m fb))%nat ->
  exists m',
    evalPdfs this prev prevEdge next nextEdge (Some (fb, fi)) backward m = OK m' /\
    arrayOf m' fb !! fi = positionPdf this /\
    (forall b j, (b, j) <> (fb, fi) -> arrayOf m' b !! j = arrayOf m b !! j).
Proof.
  intros Hroot Hf. unfold evalPdfs, isRoot, positionPdf in *.
  destruct (kind this); try discriminate;
    rewrite (store_in_bounds m fb fi) by exact Hf;
    (eexists; split; [reflexivity|]; split;
     [by rewrite store_lookup_same
     | intros b j Hne; apply store_lookup_other; congruence]).
Qed.

(** X13.  The generic connection is black whenever one of the two vertices
    is a root or a camera endpoint (or carries an unknown tag), occluded or
    not: [eval] answers zero on these kinds.  Camera endpoints contribute
    through the splat overload only. *)
Theorem connect_black_without_eval a b :
  evalsToZero a = true \/ evalsToZero b = true ->
  ~ rSq (PathEdge_of a b) == 0 ->
  isBlack (connect a b).
Proof.
  intros Hz Hr. unfold connect.
  destruct (scene_occluded _); [repeat split; reflexivity|].
  unfold evalsToZero, eval in *.
  destruct Hz as [Hz | Hz];
    [destruct (kind a) | destruct (kind b)]; try discriminate;
    unfold isBlack, vdivs, vmul, Vec3f_splat; cbn [vx vy vz];
    repeat split; field; exact Hr.
Qed.

(** X15.  The camera-splat overload returns true only when the shadow ray
    is free, [a] is a camera endpoint and [evalDirection] of its camera
    answers true; [weight] then holds
    [splatWeight * a.throughput * b.eval(-d) * b.throughput / edge.rSq] and
    the sampler and pixel are the ones [evalDirection] left. *)
Theorem connect_splat_success a b smp weightOut pixel g w px :
  connect_splat a b smp weightOut pixel = OK (true, (g, w, px)) ->
  let edge := PathEdge_of a b in
  scene_occluded (Ray4 (pos a) (d edge) (1 # 10000) (r edge * (1 - (1 # 10000)))) = false /\
  exists c record splatWeight,
    kind a = CameraVertex c record /\
    camera_evalDirection c smp (cam_point record) (DirectionSample_of (d edge)) pixel
    = (true, g, splatWeight, px) /\
    w = vdivs (vmul (vmul (vmul splatWeight (throughput a)) (eval b (vneg (d edge))))
                 (throughput b))
          (rSq edge).
Proof.
  cbv zeta. unfold connect_splat, shadowRay. intros Hc.
  destruct (scene_occluded _); [discriminate|]. split; [reflexivity|].
  destruct (kind a) as [| | |c record| | |]; try discriminate.
  destruct (camera_evalDirection _ _ _ _ _) as [[[ok g0] sw] px0] eqn:Hev.
  destruct ok; cbn in Hc; [|discriminate].
  injection Hc as <- <- <-. eexists _, _, _. repeat split. exact Hev.
Qed.

End EvalPdfsExtras.

(** * Further properties of [misWeight] *)

Lemma forEach_prefix {St : Type} (P : list nat -> St -> Prop) idx
    (body : nat -> St -> result St) st st' :
  P [] st ->
  (forall done i st0 st1,
     In i idx -> P done st0 -> body i st0 = OK st1 -> P (done ++ [i]) st1) ->
  forEach idx body st = OK st' ->
  P idx st'.
Proof.
  intros Hinit Hstep.
  assert (Hgen : forall rest done st0,
             (forall i, In i rest -> In i idx) -> P done st0 ->
             forEach rest body st0 = OK st' -> P (done ++ rest) st').
  { induction rest as [|i rest IH]; intros done st0 Hsub HP Hrun; cbn in Hrun.
    - injection Hrun as <-. by rewrite app_nil_r.
    - destruct (body i st0) as [st1|] eqn:Hb; [|discriminate]. cbn in Hrun.
      replace (done ++ i :: rest) with ((done ++ [i]) ++ rest)
        by (by rewrite <- app_assoc).
      apply (IH _ st1); [intros j Hj; apply Hsub; by right | | exact Hrun].
      apply (Hstep done i st0 st1); [apply Hsub; by left | exact HP | exact Hb]. }
  intros Hrun. apply (Hgen idx [] st); [auto | exact Hinit | exact Hrun].
Qed.

(** [pdfForward[i] = x; pdfBackward[i] = y;] *)
Lemma store_both m i x y m1 m2 :
  store (Some (ForwardArr, i)) x m = OK m1 ->
  store (Some (BackwardArr, i)) y m1 = OK m2 ->
  pdfForwardArr m2 !! i = Some x /\ pdfBackwardArr m2 !! i = Some y /\
  (forall j, j <> i ->
     pdfForwardArr m2 !! j = pdfForwardArr m !! j /\
     pdfBackwardArr m2 !! j = pdfBackwardArr m !! j) /\
  (forall n, sized n m -> sized n m2).
Proof.
  intros H1 H2. destruct (store_twice_frame _ _ _ _ _ _ _ H1 H2) as [Hl Hf].
  apply store_inv in H1 as (b1 & i1 & [= <- <-] & Hi1 & ->).
  apply store_inv in H2 as (b2 & i2 & [= <- <-] & Hi2 & ->).
  cbn in *. repeat split.
  - by apply list_lookup_insert_eq.
  - by apply list_lookup_insert_eq.
  - apply (Hf ForwardArr); congruence.
  - apply (Hf BackwardArr); congruence.
  - destruct H as [<- _]. apply (Hl ForwardArr).
  - destruct H as [_ <-]. apply (Hl BackwardArr).
Qed.

Section MisWeightExtras.
Context `{W : World}.

(** The fill loops leave the stored pdfs of the emitter path in the slots
    [0 .. s] and those of the camera path, forward and backward exchanged,
    in the slots [s+t+1 .. s+1]. *)
Lemma fillScratch_contents camera emitter s t m :
  fillScratch camera emitter s t = OK m ->
  sized ((s + 1) + (t + 1)) m /\
  (forall i v, (i <= s)%nat -> vertexAt emitter i = OK v ->
     pdfForwardArr m !! i = Some (pdfForward v) /\
     pdfBackwardArr m !! i = Some (pdfBackward v)) /\
  (forall i v, (i <= t)%nat -> vertexAt camera i = OK v ->
     pdfForwardArr m !! (s + t + 1 - i)%nat = Some (pdfBackward v) /\
     pdfBackwardArr m !! (s + t + 1 - i)%nat = Some (pdfForward v)).
Proof.
  unfold fillScratch. set (n := ((s + 1) + (t + 1))%nat).
  set (m0 := mkScratch _ _).
  destruct (forEach (seq 0 (s + 1)) _ m0) as [m1|] eqn:Hloop1; [|discriminate].
  cbn [rbind]. intros Hloop2.
  assert (H1 : sized n m1 /\
               forall i v, In i (seq 0 (s + 1)) -> vertexAt emitter i = OK v ->
                 pdfForwardArr m1 !! i = Some (pdfForward v) /\
                 pdfBackwardArr m1 !! i = Some (pdfBackward v)).
  { revert Hloop1.
    apply (forEach_prefix
             (fun done mm => sized n mm /\
                forall i v, In i done -> vertexAt emitter i = OK v ->
                  pdfForwardArr mm !! i = Some (pdfForward v) /\
                  pdfBackwardArr mm !! i = Some (pdfBackward v))).
    - split; [split; apply length_replicate | intros i v []].
    - intros done i ma mb _ [Hsz Hinv] Hbody.
      destruct (vertexAt emitter i) as [v|] eqn:Hv; [|discriminate].
      cbn [rbind] in Hbody.
      destruct (store _ (pdfForward v) ma) as [mc|] eqn:Hs1; [|discriminate].
      cbn [rbind] in Hbody.
      destruct (store_both _ _ _ _ _ _ Hs1 Hbody) as (HF & HB & Hfr & Hlen).
      split; [by apply Hlen|].
      intros j vj Hj Hvj. destruct (Nat.eq_dec j i) as [->|Hne].
      + rewrite Hv in Hvj. injection Hvj as <-. by split.
      + apply in_app_or in Hj as [Hj | [<- | []]]; [|congruence].
        destruct (Hfr j Hne) as [-> ->]. by apply Hinv. }
  destruct H1 as [Hsz1 Hem].
  assert (H2 : sized n m /\
               (forall i v, (i <= s)%nat -> vertexAt emitter i = OK v ->
                  pdfForwardArr m !! i = Some (pdfForward v) /\
                  pdfBackwardArr m !! i = Some (pdfBackward v)) /\
               (forall i v, In i (seq 0 (t + 1)) -> (i <= t)%nat ->
                  vertexAt camera i = OK v ->
                  pdfForwardArr m !! (n - 1 - i)%nat = Some (pdfBackward v) /\
                  pdfBackwardArr m !! (n - 1 - i)%nat = Some (pdfForward v))).
  { revert Hloop2.
    apply (forEach_prefix
             (fun done mm =>
                sized n mm /\
                (forall i v, (i <= s)%nat -> vertexAt emitter i = OK v ->
                   pdfForwardArr mm !! i = Some (pdfForward v) /\
                   pdfBackwardArr mm !! i = Some (pdfBackward v)) /\
                (forall i v, In i done -> (i <= t)%nat -> vertexAt camera i = OK v ->
                   pdfForwardArr mm !! (n - 1 - i)%nat = Some (pdfBackward v) /\
                   pdfBackwardArr mm !! (n - 1 - i)%nat = Some (pdfForward v)))).
    - split; [exact Hsz1|]. split.
      + intros i v Hi Hv. apply Hem; [apply in_seq; lia | exact Hv].
      + intros i v [].
    - intros done i ma mb Hin (Hsz & He & Hc) Hbody. apply in_seq in Hin.
      destruct (vertexAt camera i) as [v|] eqn:Hv; [|discriminate].
      cbn [rbind] in Hbody.
      destruct (store _ (pdfBackward v) ma) as [mc|] eqn:Hs1; [|discriminate].
      cbn [rbind] in Hbody.
      destruct (store_both _ _ _ _ _ _ Hs1 Hbody) as (HF & HB & Hfr & Hlen).
      split; [by apply Hlen|]. split.
      + intros j vj Hj Hvj.
        destruct (Hfr j ltac:(unfold n; lia)) as [-> ->]. by apply He.
      + intros j vj Hj Hjt Hvj. destruct (Nat.eq_dec j i) as [->|Hne].
        * rewrite Hv in Hvj. injection Hvj as <-. by split.
        * apply in_app_or in Hj as [Hj | [<- | []]]; [|congruence].
          destruct (Hfr (n - 1 - j)%nat ltac:(unfold n; lia)) as [-> ->].
          by apply Hc. }
  destruct H2 as (Hsz & He & Hc). split; [exact Hsz|]. split; [exact He|].
  intros i v Hi Hv. replace (s + t + 1 - i)%nat with (n - 1 - i)%nat by (unfold n; lia).
  apply Hc; [apply in_seq; lia | exact Hi | exact Hv].
Qed.

End MisWeightExtras.

Lemma runningProducts_nonneg ratio idx :
  (forall i, In i idx -> 0 <= ratio i) -> 0 <= sumQ (runningProducts ratio idx).
Proof.
  induction idx as [|i idx IH]; intros Hpos; cbn [runningProducts sumQ]; [lra|].
  rewrite sumQ_map_mult.
  assert (Hi : 0 <= ratio i) by (apply Hpos; by left).
  assert (Hrest : 0 <= sumQ (runningProducts ratio idx))
    by (apply IH; intros j Hj; apply Hpos; by right).
  pose proof (Qmult_le_0_compat _ _ Hi Hrest). lra.
Qed.

Lemma misWeightSum_ext m m' s t :
  (forall i, ((s + 1 <= i <= s + t) \/ (2 <= i <= s))%nat ->
     load (pdfForwardArr m') i = load (pdfForwardArr m) i /\
     load (pdfBackwardArr m') i = load (pdfBackwardArr m) i) ->
  misWeightSum m' s t = misWeightSum m s t.
Proof.
  intros Hagree. rewrite !misWeightSum_unfold. f_equal. f_equal.
  rewrite (accumulate_ext _
             (fun i => load (pdfForwardArr m) (i + 1) / load (pdfBackwardArr m) (i + 1))
             (seq s t)).
  - apply accumulate_ext. intros i Hi. apply in_rev, in_seq in Hi.
    destruct (Hagree (i + 1)%nat ltac:(lia)) as [-> ->]. reflexivity.
  - intros i Hi. apply in_seq in Hi.
    destruct (Hagree (i + 1)%nat ltac:(lia)) as [-> ->]. reflexivity.
Qed.

Section MisWeightExtraClaims.
Context `{W : World}.

(** X9.  The arrays the accumulation loops read hold, for the vertices of
    the emitter path, [pdfForward] in every slot [0 .. s] and [pdfBackward]
    in the slots below [s - 1]; for the vertices of the camera path, placed
    from the far end with forward and backward exchanged, [pdfForward] (in
    the backward array) in every slot and [pdfBackward] (in the forward
    array) for the vertices before [t - 1].  The stored [pdfBackward] of
    [emitter[s]], [emitter[s-1]], [camera[t]] and [camera[t-1]] is never
    used: [evalPdfs] overwrites those slots, or they stay unread. *)
Theorem misScratch_holds_stored_pdfs camera emitter s t m :
  misScratch camera emitter s t = OK m ->
  sized ((s + 1) + (t + 1)) m /\
  (forall i v, (i <= s)%nat -> vertexAt emitter i = OK v ->
     pdfForwardArr m !! i = Some (pdfForward v) /\
     ((i + 1 < s)%nat -> pdfBackwardArr m !! i = Some (pdfBackward v))) /\
  (forall i v, (i <= t)%nat -> vertexAt camera i = OK v ->
     pdfBackwardArr m !! (s + t + 1 - i)%nat = Some (pdfForward v) /\
     ((i + 1 < t)%nat -> pdfForwardArr m !! (s + t + 1 - i)%nat = Some (pdfBackward v))).
Proof.
  unfold misScratch. intros Hrun.
  destruct (fillScratch camera emitter s t) as [m0|] eqn:Hfill; [|discriminate].
  cbn [rbind] in Hrun.
  destruct (vertexAt emitter s) as [es|]; [|discriminate]. cbn [rbind] in Hrun.
  destruct (vertexAt camera t) as [ct|]; [|discriminate]. cbn [rbind] in Hrun.
  destruct (unlessZero s (vertexAt emitter (s - 1))) as [ePrev|]; [|discriminate].
  cbn [rbind] in Hrun.
  destruct (unlessZero s (edgeAt emitter (s - 1))) as [ePrevEdge|]; [|discriminate].
  cbn [rbind] in Hrun.
  destruct (evalPdfs es _ _ _ _ _ _ m0) as [m1|] eqn:Hev1; [|discriminate].
  cbn [rbind] in Hrun.
  destruct (unlessZero t (vertexAt camera (t - 1))) as [cPrev|]; [|discriminate].
  cbn [rbind] in Hrun.
  destruct (unlessZero t (edgeAt camera (t - 1))) as [cPrevEdge|]; [|discriminate].
  cbn [rbind] in Hrun.
  destruct (fillScratch_contents _ _ _ _ _ Hfill) as ([HszF HszB] & Hem & Hcam).
  destruct (evalPdfs_writes_only_its_targets _ _ _ _ _ _ _ _ _ Hev1) as [Hl1 Hf1].
  destruct (evalPdfs_writes_only_its_targets _ _ _ _ _ _ _ _ _ Hrun) as [Hl2 Hf2].
  split; [|split].
  - split.
    + rewrite <- HszF. transitivity (length (arrayOf m1 ForwardArr));
        [apply (Hl2 ForwardArr) | apply (Hl1 ForwardArr)].
    + rewrite <- HszB. transitivity (length (arrayOf m1 BackwardArr));
        [apply (Hl2 BackwardArr) | apply (Hl1 BackwardArr)].
  - intros i v Hi Hv. destruct (Hem i v Hi Hv) as [HF HB]. split.
    + rewrite <- HF. transitivity (arrayOf m1 ForwardArr !! i);
        [apply (Hf2 ForwardArr i) | apply (Hf1 ForwardArr i)]; pointer_differs.
    + intros Hlt. rewrite <- HB. transitivity (arrayOf m1 BackwardArr !! i);
        [apply (Hf2 BackwardArr i) | apply (Hf1 BackwardArr i)]; pointer_differs.
  - intros i v Hi Hv. destruct (Hcam i v Hi Hv) as [HF HB]. split.
    + rewrite <- HB. transitivity (arrayOf m1 BackwardArr !! (s + t + 1 - i)%nat);
        [apply (Hf2 BackwardArr) | apply (Hf1 BackwardArr)]; pointer_differs.
    + intros Hlt. rewrite <- HF.
      transitivity (arrayOf m1 ForwardArr !! (s + t + 1 - i)%nat);
        [apply (Hf2 ForwardArr) | apply (Hf1 ForwardArr)]; pointer_differs.
Qed.

(** X10.  When the pdfs in the slots the loops read are positive, the
    weight [misWeight] returns lies in (0, 1]. *)
Theorem misWeight_in_unit_interval camera emitter (s t : nat) m :
  misScratch camera emitter s t = OK m ->
  (forall i, ((s + 1 <= i <= s + t) \/ (2 <= i <= s))%nat ->
     0 < load (pdfForwardArr m) i /\ 0 < load (pdfBackwardArr m) i) ->
  exists w,
    misWeight camera emitter (Z.of_nat s) (Z.of_nat t) = OK w /\ 0 < w /\ w <= 1.
Proof.
  intros Hm Hpos. exists (misWeightSum m s t). split.
  { rewrite misWeight_of_nat. unfold misWeightAt. by rewrite Hm. }
  assert (Hratio : forall a b, 0 < a -> 0 < b -> 0 <= a / b).
  { intros a b Ha Hb. apply Qlt_le_weak, Qlt_shift_div_l; [exact Hb | lra]. }
  rewrite misWeightSum_specWeight. unfold specWeight.
  set (up := sumQ (runningProducts _ (seq s t))).
  set (down := sumQ (runningProducts _ (rev (seq 1 (s - 1))))).
  assert (Hup : 0 <= up).
  { apply runningProducts_nonneg. intros i Hi. apply in_seq in Hi. cbn beta.
    destruct (Hpos (i + 1)%nat ltac:(lia)). by apply Hratio. }
  assert (Hdown : 0 <= down).
  { apply runningProducts_nonneg. intros i Hi. apply in_rev, in_seq in Hi. cbn beta.
    destruct (Hpos (i + 1)%nat ltac:(lia)). by apply Hratio. }
  split.
  - apply Qlt_shift_div_l; lra.
  - apply Qle_shift_div_r; lra.
Qed.

(** X11.  With [t = 0] and [s <= 1] neither loop runs: the weight is 1,
    whatever the pdfs are. *)
Theorem misWeight_single_strategy camera emitter (s : nat) m :
  misScratch camera emitter s 0 = OK m ->
  (s <= 1)%nat ->
  exists w, misWeight camera emitter (Z.of_nat s) 0 = OK w /\ w == 1.
Proof.
  intros Hm Hs. exists (misWeightSum m s 0). split.
  - rewrite (misWeight_of_nat camera emitter s 0). unfold misWeightAt. by rewrite Hm.
  - rewrite misWeightSum_unfold.
    assert (Hcase : s = 0%nat \/ s = 1%nat) by lia.
    destruct Hcase as [-> | ->]; reflexivity.
Qed.

(** X12.  The weight depends on the two arrays through the slots
    [s+1 .. s+t] and [2 .. s] only.  The first and the last slot are never
    read, so what [evalPdfs] stores through [&pdfBackward[s - 1]] when
    [s = 1], and through [&pdfForward[s + 1]] when [t = 0], has no effect
    on the result. *)
Theorem misWeight_reads_interior_slots camera emitter camera' emitter' (s t : nat) m m' :
  misScratch camera emitter s t = OK m ->
  misScratch camera' emitter' s t = OK m' ->
  (forall i, ((s + 1 <= i <= s + t) \/ (2 <= i <= s))%nat ->
     load (pdfForwardArr m') i = load (pdfForwardArr m) i /\
     load (pdfBackwardArr m') i = load (pdfBackwardArr m) i) ->
  misWeight camera' emitter' (Z.of_nat s) (Z.of_nat t)
  = misWeight camera emitter (Z.of_nat s) (Z.of_nat t).
Proof.
  intros Hm Hm' Hagree. rewrite !misWeight_of_nat. unfold misWeightAt.
  rewrite Hm, Hm'. cbn [rbind]. f_equal. by apply misWeightSum_ext.
Qed.

(** X14.  On paths that hold the indexed vertices and edges, [misWeight]
    returns whenever each index that is 0 meets a root: the null pointers
    it passes for a zero index are handed to a vertex that does not use
    them. *)
Theorem misWeight_returns_on_roots camera emitter (s t : nat) es ct :
  indexable camera emitter s t ->
  vertexAt emitter s = OK es -> vertexAt camera t = OK ct ->
  (s = 0%nat -> isRoot es = true) ->
  (t = 0%nat -> isRoot ct = true) ->
  exists w, misWeight camera emitter (Z.of_nat s) (Z.of_nat t) = OK w.
Proof.
  intros (Hvs & Hes & Hvt & Het) Hs Ht Hsroot Htroot.
  rewrite misWeight_of_nat. unfold misWeightAt, misScratch.
  destruct (fillScratch_ok camera emitter s t Hvs Hvt) as (m0 & -> & Hsz0).
  rewrite Hs, Ht. cbn [rbind].
  set (n := ((s + 1) + (t + 1))%nat) in *.
  assert (Hstep1 : exists m1,
             (ePrev <- unlessZero s (vertexAt emitter (s - 1)) ;;
              ePrevEdge <- unlessZero s (edgeAt emitter (s - 1)) ;;
              evalPdfs es ePrev ePrevEdge ct (PathEdge_of es ct)
                (emitterForwardPtr s) (emitterBackwardPtr s) m0) = OK m1 /\
             sized n m1).
  { unfold unlessZero, emitterForwardPtr, emitterBackwardPtr.
    destruct (Nat.eqb_spec s 0) as [Hs0|Hs0]; cbn [rbind].
    - apply evalPdfs_root; [by apply Hsroot | exact Hsz0 | unfold n; lia].
    - destruct (vertexAt_ok emitter (s - 1)) as [ep ->]; [lia|].
      destruct (edgeAt_ok emitter (s - 1)) as [ee ->]; [lia|].
      cbn [rbind]. apply evalPdfs_ok; [exact Hsz0 | unfold n; lia | unfold n; lia]. }
  destruct Hstep1 as (m1 & Hm1 & Hsz1).
  assert (Hstep2 : exists m2,
             (cPrev <- unlessZero t (vertexAt camera (t - 1)) ;;
              cPrevEdge <- unlessZero t (edgeAt camera (t - 1)) ;;
              evalPdfs ct cPrev cPrevEdge es (reverse (PathEdge_of es ct))
                (cameraForwardPtr s) (cameraBackwardPtr s t) m1) = OK m2).
  { unfold unlessZero, cameraForwardPtr, cameraBackwardPtr.
    destruct (Nat.eqb_spec t 0) as [Ht0|Ht0]; cbn [rbind].
    - destruct (evalPdfs_root n ct None None es (reverse (PathEdge_of es ct))
                  BackwardArr s None m1) as (m2 & -> & _);
        [by apply Htroot | exact Hsz1 | unfold n; lia | eauto].
    - destruct (vertexAt_ok camera (t - 1)) as [cp ->]; [lia|].
      destruct (edgeAt_ok camera (t - 1)) as [ce ->]; [lia|].
      cbn [rbind].
      destruct (evalPdfs_ok n ct cp ce es (reverse (PathEdge_of es ct))
                  BackwardArr s ForwardArr (s + 2) m1) as (m2 & -> & _);
        [exact Hsz1 | unfold n; lia | unfold n; lia | eauto]. }
  destruct Hstep2 as (m2 & Hm2).
  unfold rbind in *.
  destruct (unlessZero s (vertexAt emitter (s - 1))) as [ePrev|]; [|discriminate].
  destruct (unlessZero s (edgeAt emitter (s - 1))) as [ePrevEdge|]; [|discriminate].
  rewrite Hm1.
  destruct (unlessZero t (vertexAt camera (t - 1))) as [cPrev|]; [|discriminate].
  destruct (unlessZero t (edgeAt camera (t - 1))) as [cPrevEdge|]; [|discriminate].
  rewrite Hm2. eauto.
Qed.

End MisWeightExtraClaims.

(** The further properties on the concrete world. *)

Section ExtraWitnesses.
#[local] Existing Instance Toy.handles.
#[local] Existing Instance Toy.world.

Lemma scatter_root_commits_endpoint_witness :
  exists fr',
    scatter Toy.frameRoot None Toy.slot = OK (true, fr') /\
    f_prev fr' = None /\
    endpointOfRoot (f_this fr') (f_next fr') /\
    Some (pdfForward (f_next fr')) = positionPdf (f_this fr').
Proof.
  destruct (scatter_root_commits_endpoint Toy.frameRoot None Toy.slot eq_refl)
    as (b & fr' & Hs & Hprev & _ & _ & Hok).
  assert (Hb : b = true) by (cbv in Hs; congruence).
  subst b. destruct (Hok eq_refl) as (Hend & _ & Hpdf & _).
  exists fr'. repeat split; assumption.
Defined.

Lemma scatter_needs_predecessor_witness :
  scatter Toy.frameNoPrev None Toy.slot = Fault NullDeref.
Proof.
  destruct (scatter_needs_predecessor Toy.frameNoPrev None Toy.slot eq_refl
              (or_introl eq_refl)) as [_ [Hf | [fr' Hfalse]]].
  - exact Hf.
  - cbv in Hfalse. discriminate.
Defined.

Lemma scatter_success_sets_pdfBackward_witness :
  exists fr',
    scatter Toy.frameSurface (Some Toy.unitEdge) Toy.slot = OK (true, fr') /\
    f_prev fr' =
      Some (setPdfBackward (Toy.emitterVertex 1 Toy.axisX)
              (reversePdf (f_this fr') *
               cosineFactor (Toy.emitterVertex 1 Toy.axisX) (d Toy.unitEdge) /
               rSq Toy.unitEdge)).
Proof.
  assert (Hs : exists fr', scatter Toy.frameSurface (Some Toy.unitEdge) Toy.slot
                           = OK (true, fr')) by (eexists; reflexivity).
  destruct Hs as [fr' Hs]. exists fr'. split; [exact Hs|].
  destruct (scatter_success_sets_pdfBackward Toy.frameSurface (Some Toy.unitEdge) Toy.slot
              fr' Hs eq_refl) as (prev & Hprev & [[Hend _] | (_ & pe & Hpe & Hres)]).
  - discriminate.
  - injection Hprev as <-. injection Hpe as <-. exact Hres.
Defined.

Lemma scatter_keeps_own_header_witness :
  exists fr',
    scatter Toy.frameHit None Toy.slot = OK (true, fr') /\
    sameTag (kind (Toy.emitterVertex 1 Toy.axisX)) (kind (f_this fr')) /\
    throughput (f_this fr') = Vec3f_splat 1.
Proof.
  assert (Hs : exists fr', scatter Toy.frameHit None Toy.slot = OK (true, fr'))
    by (eexists; reflexivity).
  destruct Hs as [fr' Hs]. exists fr'. split; [exact Hs|].
  destruct (scatter_keeps_own_header Toy.frameHit None Toy.slot true fr' Hs)
    as (Htag & Hthr & _).
  split; [exact Htag | exact Hthr].
Defined.

Lemma scatter_failure_after_write_is_a_miss_witness :
  exists p fr1,
    scatterSwitch Toy.frameMissStale None = OK (Break p, fr1) /\
    fst (fst (fst (scene_intersect (ray (f_state fr1))))) = false.
Proof.
  assert (Hs : exists fr', scatter Toy.frameMissStale None Toy.slot = OK (false, fr') /\
                           f_prev fr' <> f_prev Toy.frameMissStale)
    by (eexists; split; [reflexivity | cbv; discriminate]).
  destruct Hs as (fr' & Hs & Hne).
  exact (scatter_failure_after_write_is_a_miss Toy.frameMissStale None Toy.slot fr' Hs Hne).
Defined.

Lemma evalPdfs_writes_only_its_targets_witness :
  exists m',
    evalPdfs (Toy.surfaceVertex 2) (Some (Toy.surfaceVertex 1)) (Some Toy.unitEdge)
      (Toy.surfaceVertex 3) Toy.unitEdge
      (Some (ForwardArr, 2%nat)) (Some (BackwardArr, 0%nat)) Toy.scratch3 = OK m' /\
    pdfForwardArr m' !! 1%nat = Some 0 /\ pdfBackwardArr m' !! 2%nat = Some 0.
Proof.
  assert (Hs : exists m',
             evalPdfs (Toy.surfaceVertex 2) (Some (Toy.surfaceVertex 1)) (Some Toy.unitEdge)
               (Toy.surfaceVertex 3) Toy.unitEdge
               (Some (ForwardArr, 2%nat)) (Some (BackwardArr, 0%nat)) Toy.scratch3 = OK m')
    by (eexists; reflexivity).
  destruct Hs as [m' Hs]. exists m'. split; [exact Hs|].
  destruct (evalPdfs_writes_only_its_targets _ _ _ _ _ _ _ _ _ Hs) as [_ Hframe].
  split.
  - apply (Hframe ForwardArr 1%nat); discriminate.
  - apply (Hframe BackwardArr 2%nat); discriminate.
Defined.

Lemma evalPdfs_root_writes_forward_only_witness :
  exists m',
    evalPdfs Toy.emitterRoot None None (Toy.surfaceVertex 1) Toy.unitEdge
      (Some (ForwardArr, 1%nat)) (Some (BackwardArr, 1%nat)) Toy.scratch3 = OK m' /\
    pdfForwardArr m' !! 1%nat = Some 1 /\ pdfBackwardArr m' !! 1%nat = Some 0.
Proof.
  destruct (evalPdfs_root_writes_forward_only Toy.emitterRoot None None
              (Toy.surfaceVertex 1) Toy.unitEdge ForwardArr 1%nat
              (Some (BackwardArr, 1%nat)) Toy.scratch3 eq_refl ltac:(cbn; lia))
    as (m' & Hm & Hf & Hframe).
  exists m'. split; [exact Hm|]. split; [exact Hf|].
  apply (Hframe BackwardArr 1%nat). discriminate.
Defined.

Lemma connect_black_without_eval_witness :
  isBlack (connect (Toy.cameraVertex 0 Toy.axisX) (Toy.surfaceVertex 1)).
Proof.
  apply connect_black_without_eval.
  - left. reflexivity.
  - vm_compute. discriminate.
Defined.

Lemma connect_splat_success_witness :
  exists g w px,
    connect_splat (Toy.cameraVertex 0 Toy.axisX) (Toy.surfaceVertex 1) 0%nat
      (Vec3f_splat 5) (1%N, 2%N) = OK (true, (g, w, px)) /\
    scene_occluded
      (Ray4 (pos (Toy.cameraVertex 0 Toy.axisX))
         (d (PathEdge_of (Toy.cameraVertex 0 Toy.axisX) (Toy.surfaceVertex 1)))
         (1 # 10000)
         (r (PathEdge_of (Toy.cameraVertex 0 Toy.axisX) (Toy.surfaceVertex 1))
          * (1 - (1 # 10000)))) = false /\
    px = (7%N, 9%N).
Proof.
  assert (Hs : exists g w,
             connect_splat (Toy.cameraVertex 0 Toy.axisX) (Toy.surfaceVertex 1) 0%nat
               (Vec3f_splat 5) (1%N, 2%N) = OK (true, (g, w, (7%N, 9%N))))
    by (eexists _, _; reflexivity).
  destruct Hs as (g & w & Hs). exists g, w, (7%N, 9%N). split; [exact Hs|].
  destruct (connect_splat_success _ _ _ _ _ _ _ _ Hs) as [Hocc _].
  split; [exact Hocc | reflexivity].
Defined.

Lemma misScratch_holds_stored_pdfs_witness :
  exists m,
    misScratch (Toy.cameraPath 4 2) (Toy.emitterPathStale 2) 2 2 = OK m /\
    pdfForwardArr m !! 0%nat = Some 7 /\ pdfBackwardArr m !! 0%nat = Some 9.
Proof.
  assert (Hs : exists m,
             misScratch (Toy.cameraPath 4 2) (Toy.emitterPathStale 2) 2 2 = OK m)
    by (eexists; reflexivity).
  destruct Hs as [m Hs]. exists m. split; [exact Hs|].
  destruct (misScratch_holds_stored_pdfs _ _ _ _ _ Hs) as (_ & Hem & _).
  destruct (Hem 0%nat Toy.staleRoot ltac:(lia) eq_refl) as [HF HB].
  split; [exact HF | apply HB; lia].
Defined.

Lemma misWeight_in_unit_interval_witness :
  exists w,
    misWeight (Toy.cameraPath 3 1) (Toy.emitterPath 2) 2 1 = OK w /\ 0 < w /\ w <= 1.
Proof.
  refine (misWeight_in_unit_interval (Toy.cameraPath 3 1) (Toy.emitterPath 2) 2 1 _
            eq_refl _).
  intros i Hi.
  assert (Hcases : i = 2%nat \/ i = 3%nat) by lia.
  destruct Hcases as [-> | ->]; split; vm_compute; reflexivity.
Defined.

Lemma misWeight_single_strategy_witness :
  exists w, misWeight (Toy.cameraPath 1 0) (Toy.emitterPath 1) 1 0 = OK w /\ w == 1.
Proof.
  refine (misWeight_single_strategy (Toy.cameraPath 1 0) (Toy.emitterPath 1) 1 _
            eq_refl _).
  lia.
Defined.

Lemma misWeight_reads_interior_slots_witness :
  misWeight (Toy.cameraPath 3 1) (Toy.emitterPathStale 2) 2 1
  = misWeight (Toy.cameraPath 3 1) (Toy.emitterPath 2) 2 1.
Proof.
  refine (misWeight_reads_interior_slots (Toy.cameraPath 3 1) (Toy.emitterPath 2)
            (Toy.cameraPath 3 1) (Toy.emitterPathStale 2) 2 1 _ _ eq_refl eq_refl _).
  intros i Hi.
  assert (Hcases : i = 2%nat \/ i = 3%nat) by lia.
  destruct Hcases as [-> | ->]; split; reflexivity.
Defined.

Lemma misWeight_returns_on_roots_witness :
  exists w, misWeight (Toy.cameraPath 3 3) (Toy.emitterPath 0) 0 3 = OK w.
Proof.
  refine (misWeight_returns_on_roots (Toy.cameraPath 3 3) (Toy.emitterPath 0) 0 3
            _ _ _ eq_refl eq_refl _ _).
  - repeat split; cbn; lia.
  - intros _. reflexivity.
  - intros Ht. discriminate.
Defined.

End ExtraWitnesses.
